(** * webcrypto-local: client correlation, server dispatcher, handle registry

    A shallow embedding of the two TypeScript classes of the gateway,
    [Client] (socket client, request/reply correlation) and [LocalServer]
    (action dispatcher, in-memory handle registry, thumbprint computation),
    together with the properties of them that the specification records.

    Conventions.
    - JavaScript strings are modelled as [string], holding the UTF-8
      encoding of the text.  [toLowerCase] acts on the characters whose
      lower case is an ASCII letter: the ASCII capitals and the Kelvin sign
      U+212A.
    - An [ArrayBuffer] is a list of bytes.
    - A thrown exception or a rejected promise is a value of [JsError].
    - Code of other packages (the ratchet, the protobuf codec, the crypto
      providers, the notifier) is not modelled: its results enter as the
      answers of an environment or as event payloads. *)

From Stdlib Require Import Ascii String.
From Stdlib.Strings Require Import Byte.
From stdpp Require Import base option list gmap strings pretty.

Open Scope string_scope.
Open Scope list_scope.
Open Scope nat_scope.

(** ** JavaScript values shared by both sides *)

Definition bytes : Type := list Byte.byte.

Inductive JsError : Type :=
| Error (message : string)
| TypeError (message : string).

Global Instance JsError_eq_dec : EqDecision JsError.
Proof. solve_decision. Defined.

(** [e.message] *)
Definition message (e : JsError) : string :=
  match e with Error m | TypeError m => m end.

(** A JSON web key, kept as its members. *)
Definition Jwk : Type := list (string * string).

(** What travels as [data] or as key material: a buffer or a JWK object
    (the casts of the source do not check which). *)
Inductive Data : Type :=
| ArrayBuffer (b : bytes)
| JsonWebKey (j : Jwk).

(** Truthiness of a value that is either [undefined] or a string: only a
    non-empty string is truthy. *)
Definition truthy_string (s : option string) : bool :=
  match s with
  | Some s => negb (bool_decide (s = ""))
  | None => false
  end.

(** The lower case of an ASCII character. *)
Definition lower (a : ascii) : ascii :=
  let n := N_of_ascii a in
  if decide (65 ≤ n ≤ 90)%N then ascii_of_N (n + 32) else a.

(** The Kelvin sign U+212A, in UTF-8: E2 84 AA. *)
Definition kelvin : string :=
  String (ascii_of_N 226) (String (ascii_of_N 132) (String (ascii_of_N 170) EmptyString)).

(** Whether the three bytes are the Kelvin sign. *)
Definition is_kelvin (a b c : ascii) : bool :=
  bool_decide (String a (String b (String c EmptyString)) = kelvin).

(** [String.prototype.toLowerCase].  The lower case of the Kelvin sign is
    the letter k; an ASCII capital becomes its small letter.  Every other
    character is left as it is here: its lower case in JavaScript is that
    character or other text outside the ASCII letters j, w and k (the
    capital I with dot, U+0130, gives an i with a combining dot), so that a
    comparison of the result with a text of these letters is not affected. *)
Fixpoint toLowerCase (s : string) : string :=
  match s with
  | EmptyString => EmptyString
  | String a rest =>
      match rest with
      | String b (String c rest') =>
          if is_kelvin a b c then String "k" (toLowerCase rest')
          else String (lower a) (toLowerCase rest)
      | _ => String (lower a) (toLowerCase rest)
      end
  end.

(** [Number.prototype.toString] on a non-negative integer below 2^53. *)
Definition toString (n : N) : string := pretty n.

(** [n++] on a JavaScript number holding a non-negative integer: exact up to
    2^53, where adding one rounds back to the same double. *)
Definition js_succ (n : N) : N := if decide (n < 2 ^ 53)%N then (n + 1)%N else n.

(** ** core/proto: the two envelopes *)

Module ActionProto.
Record t : Type := mk { action : string; actionId : string; payload : bytes }.
(** [new ActionProto()] *)
Definition empty : t := mk "" "" [].
End ActionProto.

Module ResultProto.
Record t : Type := mk {
  actionId : string;
  action : string;
  data : option Data;
  error : option string
}.
End ResultProto.

(** * The client *)

Module Client.

Inductive SocketCryptoState : Type := connecting | open | closing | closed.

Global Instance SocketCryptoState_eq_dec : EqDecision SocketCryptoState.
Proof. solve_decision. Defined.

(** The two functions handed to the executor of the promise that [send]
    returns; the [p]-th promise created by [send] is promise number [p]. *)
Inductive Callback : Type :=
| ResolveOf (p : nat)
| RejectOf (p : nat).

Global Instance Callback_eq_dec : EqDecision Callback.
Proof. solve_decision. Defined.

Definition promise_of (c : Callback) : nat :=
  match c with ResolveOf p | RejectOf p => p end.

Record PromiseStackItem : Type := mkItem { resolve : Callback; reject : Callback }.

(** One call of a [resolve] or [reject] function, with its argument. *)
Inductive Invocation : Type :=
| Resolved (f : Callback) (data : option Data)
| Rejected (f : Callback) (err : JsError).

Definition callee (i : Invocation) : Callback :=
  match i with Resolved f _ | Rejected f _ => f end.

Inductive ClientEvent : Type :=
| ClientListeningEvent (address : string)
| ClientCloseEvent (remoteAddress : string)
| ClientErrorEvent (error : JsError).

(** The client object, the objects it shares with its callers and a record
    of what it did to the outside.
    - [stack], [messageCounter]: the fields of the class;
    - [readyState]: [socket.readyState], read by the getter [state];
    - [address]: the address captured by the socket callbacks;
    - [heap]: the [ActionProto] objects passed to [send], by reference;
    - [promises]: how many promises [send] has created;
    - [chains]: the [.then] continuations of [send] that have not run yet,
      by promise number, each with the reference to its [data] object;
    - [calls]: every call of a [resolve] or [reject] function so far;
    - [sent]: the frames handed to [socket.send];
    - [emitted]: the events given to [emit], with their names. *)
Record t : Type := mk {
  stack : gmap string PromiseStackItem;
  messageCounter : N;
  readyState : SocketCryptoState;
  address : string;
  heap : gmap nat ActionProto.t;
  promises : nat;
  chains : gmap nat nat;
  calls : list Invocation;
  sent : list bytes;
  emitted : list (string * ClientEvent)
}.

(** A client whose socket has just opened on [addr]. *)
Definition connected (addr : string) : t :=
  mk ∅ 0 open addr ∅ 0 ∅ [] [] [].

Definition state (c : t) : SocketCryptoState := readyState c.

(** [checkSocketState] *)
Definition checkSocketState (c : t) : option JsError :=
  if decide (state c = open) then None
  else Some (Error "Socket connection is not open").

(** The synchronous part of [send(event, data)]: the executor of the new
    promise.  [data] is a reference to the caller's object, or [None] when
    the argument is left out.  When [checkSocketState] throws, the promise
    constructor calls the promise's reject function with the exception. *)
Definition send (event : string) (data : option nat) (c : t) : t :=
  let p := promises c in
  match checkSocketState c with
  | Some e =>
      mk (stack c) (messageCounter c) (readyState c) (address c) (heap c)
         (S p) (chains c) (calls c ++ [Rejected (RejectOf p) e])
         (sent c) (emitted c)
  | None =>
      let r := match data with
               | Some r => r
               | None => fresh (dom (heap c))
               end in
      let obj := default ActionProto.empty (heap c !! r) in
      let obj' := ActionProto.mk event (toString (messageCounter c))
                                 (ActionProto.payload obj) in
      mk (stack c) (js_succ (messageCounter c)) (readyState c) (address c)
         (<[r := obj']> (heap c))
         (S p) (<[p := r]> (chains c)) (calls c) (sent c) (emitted c)
  end.

(** [this.socket.send(raw)]: the frame is handed to the socket, whatever
    the state of the socket is. *)
Definition socket_send (raw : bytes) (c : t) : list bytes :=
  sent c ++ [raw].

(** The asynchronous part of [send], for promise number [p]: the chain
    [data.exportProto()], [cipher.encrypt], [msg.exportProto()] has settled
    with [raw].  On success the last [.then] stores the callbacks under the
    [actionId] that the object holds at that moment and sends the frame; on
    failure no handler is attached, so nothing runs. *)
Definition send_then (p : nat) (raw : JsError + bytes) (c : t) : t :=
  match chains c !! p with
  | None => c
  | Some r =>
      match raw with
      | inl _ =>
          mk (stack c) (messageCounter c) (readyState c) (address c) (heap c)
             (promises c) (delete p (chains c)) (calls c) (sent c) (emitted c)
      | inr raw =>
          let id := ActionProto.actionId (default ActionProto.empty (heap c !! r)) in
          mk (<[id := mkItem (ResolveOf p) (RejectOf p)]> (stack c))
             (messageCounter c) (readyState c) (address c) (heap c)
             (promises c) (delete p (chains c)) (calls c)
             (socket_send raw c) (emitted c)
      end
  end.

(** How an [async] method ended. *)
Inductive Completion : Type :=
| Returned
| Threw (e : JsError).

Section WithCodec.

(** [ResultProto.importProto], from the protobuf codec. *)
Variable importProto : bytes → JsError + ResultProto.t.

(** [onMessage(message)].  Reading a key that [stack] does not hold gives
    [undefined], and the member access on it throws.  (A key that the
    object inherits, such as [constructor], gives a value without [resolve]
    and [reject]: the call throws a [TypeError] as well and nothing else
    changes.) *)
Definition onMessage (message : bytes) (c : t) : t * Completion :=
  match importProto message with
  | inl e => (c, Threw e)
  | inr proto =>
      let promise := stack c !! ResultProto.actionId proto in
      let c' := mk (delete (ResultProto.actionId proto) (stack c))
                   (messageCounter c) (readyState c) (address c) (heap c)
                   (promises c) (chains c) (calls c) (sent c) (emitted c) in
      if truthy_string (ResultProto.error proto) then
        match promise with
        | Some item =>
            (mk (stack c') (messageCounter c') (readyState c') (address c')
                (heap c') (promises c') (chains c')
                (calls c' ++ [Rejected (reject item)
                                (Error (default "" (ResultProto.error proto)))])
                (sent c') (emitted c'),
             Returned)
        | None => (c', Threw (TypeError "Cannot read property 'reject' of undefined"))
        end
      else
        match promise with
        | Some item =>
            (mk (stack c') (messageCounter c') (readyState c') (address c')
                (heap c') (promises c') (chains c')
                (calls c' ++ [Resolved (resolve item) (ResultProto.data proto)])
                (sent c') (emitted c'),
             Returned)
        | None => (c', Threw (TypeError "Cannot read property 'resolve' of undefined"))
        end
  end.

(** [emit(name, event)] *)
Definition emit (name : string) (e : ClientEvent) (c : t) : t :=
  mk (stack c) (messageCounter c) (readyState c) (address c) (heap c)
     (promises c) (chains c) (calls c) (sent c) (emitted c ++ [(name, e)]).

(** [socket.onmessage] on a binary frame (any other frame is ignored): the
    frame has been imported and decrypted with result [msg].  The promise
    of [onMessage] is dropped by the [.then] handler, so an exception of
    [onMessage] reaches no [.catch]. *)
Definition socket_onmessage (msg : JsError + bytes) (c : t) : t :=
  match msg with
  | inl err => emit "error" (ClientErrorEvent err) c
  | inr message => fst (onMessage message c)
  end.

(** [socket.onclose]; the socket is closed when it fires. *)
Definition socket_onclose (c : t) : t :=
  emit "close" (ClientCloseEvent (address c))
       (mk (stack c) (messageCounter c) closed (address c) (heap c)
           (promises c) (chains c) (calls c) (sent c) (emitted c)).

(** What can happen to a connected client. *)
Inductive Step : Type :=
| Send (event : string) (data : option nat)
| SendThen (p : nat) (raw : JsError + bytes)
| Frame (msg : JsError + bytes)
| Close.

Definition step (c : t) (s : Step) : t :=
  match s with
  | Send event data => send event data c
  | SendThen p raw => send_then p raw c
  | Frame msg => socket_onmessage msg c
  | Close => socket_onclose c
  end.

Definition run (steps : list Step) (c : t) : t := foldl step c steps.

(** How often the functions of promise [p] have been called. *)
Definition count (p : nat) (cs : list Invocation) : nat :=
  length (filter (λ i, promise_of (callee i) = p) cs).

Definition settlements (p : nat) (c : t) : nat := count p (calls c).

End WithCodec.

(** The entry that the continuation of promise [p] stores. *)
Definition own (p : nat) : PromiseStackItem := mkItem (ResolveOf p) (RejectOf p).

(** What holds of every client that [run] can reach: an entry of [stack]
    belongs to exactly one promise, whose continuation has run and whose
    functions have not been called; a promise whose continuation is still
    to run has not been settled; no promise is settled twice, and none
    before it exists. *)
Record inv (c : t) : Prop := mkInv {
  inv_stack : ∀ k item, stack c !! k = Some item →
    ∃ p, item = own p ∧ p < promises c ∧ chains c !! p = None ∧ count p (calls c) = 0;
  inv_inj : ∀ k1 k2 p,
    stack c !! k1 = Some (own p) → stack c !! k2 = Some (own p) → k1 = k2;
  inv_chains : ∀ p r, chains c !! p = Some r → p < promises c ∧ count p (calls c) = 0;
  inv_once : ∀ p, count p (calls c) ≤ 1;
  inv_fresh : ∀ p, promises c ≤ p → count p (calls c) = 0
}.

(** Promise [p] exists, its continuation is gone and no entry of the stack
    holds its functions. *)
Definition lost (p : nat) (c : t) : Prop :=
  p < promises c ∧ chains c !! p = None ∧ ∀ k, stack c !! k ≠ Some (own p).

Definition is_frame (s : Step) : bool :=
  match s with Frame _ => true | _ => false end.

(** The object that [send] works on: the caller's, or a new one. *)
Definition data_object (data : option nat) (c : t) : nat :=
  match data with
  | Some r => r
  | None => fresh (dom (heap c))
  end.

(** The continuation of promise [p] is still to run, on object [r], which
    holds the [actionId] [id]. *)
Definition waiting (p r : nat) (id : string) (c : t) : Prop :=
  p < promises c ∧ chains c !! p = Some r
  ∧ ∃ obj, heap c !! r = Some obj ∧ ActionProto.actionId obj = id.

(** Step [s] passes object [r] to [send] again, or runs the continuation
    of promise [p]. *)
Definition touches (p r : nat) (s : Step) : bool :=
  match s with
  | Send _ (Some r') => bool_decide (r' = r)
  | SendThen q _ => bool_decide (q = p)
  | _ => false
  end.

End Client.

(** * The server *)

Module LocalServer.

(** ** Foreign objects

    Objects of other packages are opaque: a crypto provider, an algorithm
    object (an [AlgorithmProto] or the plain object it converts to) and the
    live keys and certificates.  [ossl] is the module constant [crypto],
    an instance of node-webcrypto-ossl. *)

Inductive Crypto : Type := ossl | ProviderCrypto (ref : nat).
Inductive Algorithm : Type := AlgorithmObject (ref : nat).

Global Instance Crypto_eq_dec : EqDecision Crypto.
Proof. solve_decision. Defined.
Global Instance Algorithm_eq_dec : EqDecision Algorithm.
Proof. solve_decision. Defined.

(** [null], [undefined] or a value *)
Inductive Maybe (A : Type) : Type := null | undefined | defined (a : A).
Arguments null {A}.
Arguments undefined {A}.
Arguments defined {A} a.

Global Instance Maybe_eq_dec {A} `{EqDecision A} : EqDecision (Maybe A).
Proof. solve_decision. Defined.

(** Truthiness of something that is [null], [undefined] or an object (an
    array is an object, also when it is empty). *)
Definition truthy_object {A} (v : Maybe A) : bool :=
  match v with defined _ => true | _ => false end.

Module CryptoKey.
Record t : Type := mk {
  type : string;
  algorithm : Algorithm;
  extractable : bool;
  usages : list string;
  ref : nat
}.
End CryptoKey.

Module CryptoCertificate.
Record t : Type := mk { type : string; publicKey : CryptoKey.t; ref : nat }.
End CryptoCertificate.

(** What [ServiceCryptoItem.item] holds: the casts of the source do not
    check which of the two it is. *)
Inductive CryptoItem : Type :=
| Key (k : CryptoKey.t)
| Certificate (c : CryptoCertificate.t).

Definition item_type (i : CryptoItem) : string :=
  match i with
  | Key k => CryptoKey.type k
  | Certificate c => CryptoCertificate.type c
  end.

(** The result of [subtle.generateKey]: a [CryptoKey] or a [CryptoKeyPair]. *)
Inductive GeneratedKeys : Type :=
| SingleKey (key : CryptoKey.t)
| KeyPair (publicKey privateKey : CryptoKey.t).

(** [(keys as CryptoKeyPair).privateKey] *)
Definition privateKey_of (keys : GeneratedKeys) : Maybe CryptoKey.t :=
  match keys with
  | SingleKey _ => undefined
  | KeyPair _ priv => defined priv
  end.

(** ** Wire messages (core/proto, core/protos) *)

Module CryptoItemProto.
Record t : Type := mk { id : string; providerID : string; type : string }.
End CryptoItemProto.

Module CryptoKeyPairProto.
Record t : Type := mk { privateKey : CryptoItemProto.t; publicKey : CryptoItemProto.t }.
End CryptoKeyPairProto.

Module ProviderCryptoInfo.
Record t : Type := mk { id : string; name : string }.
End ProviderCryptoInfo.

Module ProviderInfoProto.
Record t : Type := mk { name : string; providers : list ProviderCryptoInfo.t }.
End ProviderInfoProto.

(** The messages on which the dispatcher calls [exportProto]. *)
Inductive ObjectProto : Type :=
| OfInfo (p : ProviderInfoProto.t)
| OfItem (p : CryptoItemProto.t)
| OfKeyPair (p : CryptoKeyPairProto.t).

Module ServiceCryptoItem.
(** [new ServiceCryptoItem(id, item, providerID)]; the dispatcher reads
    [id], [providerID] and [item]. *)
Record t : Type := mk { id : string; item : CryptoItem; providerID : string }.

(** Modelled from the spec: [ServiceCryptoItem.toProto] (./crypto_item is
    not among the sources).  The handle that crosses the wire is
    [{ id, providerId, type }] and carries no key material. *)
Definition toProto (i : t) : CryptoItemProto.t :=
  CryptoItemProto.mk (id i) (providerID i) (item_type (item i)).
End ServiceCryptoItem.

(** ** The parameters of the actions, as [importProto] delivers them *)

Module ProviderGetCryptoActionProto.
Record t : Type := mk { cryptoID : string }.
End ProviderGetCryptoActionProto.

Module IsLoggedInActionProto.
Record t : Type := mk { providerID : string }.
End IsLoggedInActionProto.

Module LoginActionProto.
Record t : Type := mk { providerID : string }.
End LoginActionProto.

Module DigestActionProto.
Record t : Type := mk { providerID : string; algorithm : Algorithm; data : bytes }.
End DigestActionProto.

Module GenerateKeyActionProto.
Record t : Type := mk {
  providerID : string; algorithm : Algorithm;
  extractable : bool; usage : list string
}.
End GenerateKeyActionProto.

Module SignActionProto.
Record t : Type := mk {
  providerID : string; algorithm : Algorithm;
  key : CryptoItemProto.t; data : bytes
}.
End SignActionProto.

Module VerifyActionProto.
Record t : Type := mk {
  providerID : string; algorithm : Algorithm;
  key : CryptoItemProto.t; data : bytes; signature : bytes
}.
End VerifyActionProto.

Module EncryptActionProto := SignActionProto.
Module DecryptActionProto := SignActionProto.

Module DeriveBitsActionProto.
Record t : Type := mk {
  providerID : string; algorithm : Algorithm;
  key : CryptoItemProto.t; length : N
}.
End DeriveBitsActionProto.

Module DeriveKeyActionProto.
Record t : Type := mk {
  providerID : string; algorithm : Algorithm; key : CryptoItemProto.t;
  derivedKeyType : Algorithm; extractable : bool; usage : list string
}.
End DeriveKeyActionProto.

Module WrapKeyActionProto.
Record t : Type := mk {
  providerID : string; format : string; key : CryptoItemProto.t;
  wrappingKey : CryptoItemProto.t; wrapAlgorithm : Algorithm
}.
End WrapKeyActionProto.

Module UnwrapKeyActionProto.
Record t : Type := mk {
  providerID : string; format : string; wrappedKey : bytes;
  unwrappingKey : CryptoItemProto.t; unwrapAlgorithm : Algorithm;
  unwrappedKeyAlgorithm : Algorithm; extractable : bool; keyUsage : list string
}.
End UnwrapKeyActionProto.

Module ExportKeyActionProto.
Record t : Type := mk { providerID : string; format : string; key : CryptoItemProto.t }.
End ExportKeyActionProto.

Module ImportKeyActionProto.
Record t : Type := mk {
  providerID : string; format : string; keyData : bytes;
  algorithm : Algorithm; extractable : bool; keyUsages : list string
}.
End ImportKeyActionProto.

Module KeyStorageGetItemActionProto.
Record t : Type := mk {
  providerID : string; key : string;
  algorithm : Algorithm; keyUsages : Maybe (list string)
}.
End KeyStorageGetItemActionProto.

Module KeyStorageSetItemActionProto.
Record t : Type := mk { providerID : string; item : CryptoItemProto.t }.
End KeyStorageSetItemActionProto.

Module KeyStorageRemoveItemActionProto.
Record t : Type := mk { providerID : string; key : string }.
End KeyStorageRemoveItemActionProto.

Module KeyStorageKeysActionProto.
Record t : Type := mk { providerID : string }.
End KeyStorageKeysActionProto.

Module KeyStorageClearActionProto := KeyStorageKeysActionProto.

Module CertificateStorageGetItemActionProto := KeyStorageGetItemActionProto.
Module CertificateStorageSetItemActionProto := KeyStorageSetItemActionProto.
Module CertificateStorageRemoveItemActionProto := KeyStorageRemoveItemActionProto.

Module CertificateStorageImportActionProto.
Record t : Type := mk {
  providerID : string; type : string; data : bytes;
  algorithm : Algorithm; keyUsages : list string
}.
End CertificateStorageImportActionProto.

Module CertificateStorageExportActionProto.
Record t : Type := mk { providerID : string; format : string; item : CryptoItemProto.t }.
End CertificateStorageExportActionProto.

Module CertificateStorageKeysActionProto := KeyStorageKeysActionProto.
Module CertificateStorageClearActionProto := KeyStorageKeysActionProto.

(** The action classes, in the order of the [case] labels of [onMessage]. *)
Inductive ActionClass : Type :=
| ProviderInfoAction | ProviderGetCryptoAction
| IsLoggedInAction | LoginAction
| DigestAction | GenerateKeyAction | SignAction | VerifyAction
| EncryptAction | DecryptAction | DeriveBitsAction | DeriveKeyAction
| WrapKeyAction | UnwrapKeyAction | ExportKeyAction | ImportKeyAction
| KeyStorageGetItemAction | KeyStorageSetItemAction
| KeyStorageRemoveItemAction | KeyStorageKeysAction | KeyStorageClearAction
| CertificateStorageGetItemAction | CertificateStorageSetItemAction
| CertificateStorageRemoveItemAction | CertificateStorageImportAction
| CertificateStorageExportAction | CertificateStorageKeysAction
| CertificateStorageClearAction.

Global Instance ActionClass_eq_dec : EqDecision ActionClass.
Proof. solve_decision. Defined.

Definition cases : list ActionClass :=
  [ ProviderInfoAction; ProviderGetCryptoAction; IsLoggedInAction; LoginAction;
    DigestAction; GenerateKeyAction; SignAction; VerifyAction;
    EncryptAction; DecryptAction; DeriveBitsAction; DeriveKeyAction;
    WrapKeyAction; UnwrapKeyAction; ExportKeyAction; ImportKeyAction;
    KeyStorageGetItemAction; KeyStorageSetItemAction;
    KeyStorageRemoveItemAction; KeyStorageKeysAction; KeyStorageClearAction;
    CertificateStorageGetItemAction; CertificateStorageSetItemAction;
    CertificateStorageRemoveItemAction; CertificateStorageImportAction;
    CertificateStorageExportAction; CertificateStorageKeysAction;
    CertificateStorageClearAction ].

(** What [importProto] of each class returns. *)
Definition Params (k : ActionClass) : Type :=
  match k with
  | ProviderInfoAction => ActionProto.t
  | ProviderGetCryptoAction => ProviderGetCryptoActionProto.t
  | IsLoggedInAction => IsLoggedInActionProto.t
  | LoginAction => LoginActionProto.t
  | DigestAction => DigestActionProto.t
  | GenerateKeyAction => GenerateKeyActionProto.t
  | SignAction => SignActionProto.t
  | VerifyAction => VerifyActionProto.t
  | EncryptAction => EncryptActionProto.t
  | DecryptAction => DecryptActionProto.t
  | DeriveBitsAction => DeriveBitsActionProto.t
  | DeriveKeyAction => DeriveKeyActionProto.t
  | WrapKeyAction => WrapKeyActionProto.t
  | UnwrapKeyAction => UnwrapKeyActionProto.t
  | ExportKeyAction => ExportKeyActionProto.t
  | ImportKeyAction => ImportKeyActionProto.t
  | KeyStorageGetItemAction => KeyStorageGetItemActionProto.t
  | KeyStorageSetItemAction => KeyStorageSetItemActionProto.t
  | KeyStorageRemoveItemAction => KeyStorageRemoveItemActionProto.t
  | KeyStorageKeysAction => KeyStorageKeysActionProto.t
  | KeyStorageClearAction => KeyStorageClearActionProto.t
  | CertificateStorageGetItemAction => CertificateStorageGetItemActionProto.t
  | CertificateStorageSetItemAction => CertificateStorageSetItemActionProto.t
  | CertificateStorageRemoveItemAction => CertificateStorageRemoveItemActionProto.t
  | CertificateStorageImportAction => CertificateStorageImportActionProto.t
  | CertificateStorageExportAction => CertificateStorageExportActionProto.t
  | CertificateStorageKeysAction => CertificateStorageKeysActionProto.t
  | CertificateStorageClearAction => CertificateStorageClearActionProto.t
  end.

(** ** Calls into other packages

    [call X] is a call of foreign code that answers with an [X] or fails
    (throws, or returns a promise that rejects). *)

Inductive AlgorithmIdentifier : Type :=
| ByName (name : string)
| ByObject (a : Algorithm).

Inductive call : Type → Type :=
(* the protobuf codec *)
| importProto (k : ActionClass) (action : ActionProto.t) : call (Params k)
| CryptoKeyProto_importProto (raw : Data) : call CryptoItemProto.t
| exportProto (p : ObjectProto) : call bytes
| ArrayStringConverter_set (l : list string) : call bytes
(* algorithm objects: [isEmpty()], [toAlgorithm()], [alg.public] *)
| isEmpty (a : Algorithm) : call bool
| toAlgorithm (a : Algorithm) : call Algorithm
| get_public (a : Algorithm) : call Data
| set_public (a : Algorithm) (k : CryptoItem) : call unit
(* the provider and its crypto objects *)
| provider_info : call ProviderInfoProto.t
| provider_getCrypto (id : string) : call Crypto
| isLoggedIn (c : Crypto) : call bool
| has_login (c : Crypto) : call bool
| login (c : Crypto) (pin : string) : call unit
| notifier_notify : call (string * Maybe string)
    (* [response] and [metadata.activationValue] as the callback of
       [notifier.notify] receives them; without [metadata] there is no value *)
(* crypto.subtle *)
| subtle_digest (c : Crypto) (alg : AlgorithmIdentifier) (data : Data) : call bytes
| subtle_generateKey (c : Crypto) (alg : Algorithm) (extractable : bool)
    (usage : list string) : call GeneratedKeys
| subtle_sign (c : Crypto) (alg : Algorithm) (key : CryptoItem) (data : bytes) : call bytes
| subtle_verify (c : Crypto) (alg : Algorithm) (key : CryptoItem)
    (signature data : bytes) : call bool
| subtle_encrypt (c : Crypto) (alg : Algorithm) (key : CryptoItem) (data : bytes) : call bytes
| subtle_decrypt (c : Crypto) (alg : Algorithm) (key : CryptoItem) (data : bytes) : call bytes
| subtle_deriveBits (c : Crypto) (alg : Algorithm) (key : CryptoItem) (length : N) : call bytes
| subtle_deriveKey (c : Crypto) (alg : Algorithm) (key : CryptoItem)
    (derivedKeyType : Algorithm) (extractable : bool) (usage : list string) : call CryptoKey.t
| subtle_wrapKey (c : Crypto) (format : string) (key wrappingKey : CryptoItem)
    (wrapAlgorithm : Algorithm) : call bytes
| subtle_unwrapKey (c : Crypto) (format : string) (wrappedKey : bytes)
    (unwrappingKey : CryptoItem) (unwrapAlgorithm unwrappedKeyAlgorithm : Algorithm)
    (extractable : bool) (keyUsage : list string) : call CryptoKey.t
| subtle_exportKey (c : Crypto) (format : string) (key : CryptoItem) : call Data
| subtle_importKey (c : Crypto) (format : string) (keyData : Data) (alg : Algorithm)
    (extractable : bool) (keyUsages : list string) : call CryptoKey.t
(* crypto.keyStorage *)
| keyStorage_getItem (c : Crypto) (key : string) (alg : Maybe Algorithm)
    (usages : Maybe (list string)) : call (Maybe CryptoKey.t)
| keyStorage_setItem (c : Crypto) (key : CryptoItem) : call string
| keyStorage_removeItem (c : Crypto) (key : string) : call unit
| keyStorage_keys (c : Crypto) : call (list string)
| keyStorage_clear (c : Crypto) : call unit
(* crypto.certStorage *)
| certStorage_getItem (c : Crypto) (key : string) (alg : Maybe Algorithm)
    (usages : Maybe (list string)) : call (Maybe CryptoCertificate.t)
| certStorage_setItem (c : Crypto) (cert : CryptoItem) : call string
| certStorage_removeItem (c : Crypto) (key : string) : call unit
| certStorage_importCert (c : Crypto) (type : string) (data : bytes) (alg : Algorithm)
    (keyUsages : list string) : call CryptoCertificate.t
| certStorage_exportCert (c : Crypto) (format : string) (cert : CryptoItem) : call (bytes + string)
| certStorage_keys (c : Crypto) : call (list string)
| certStorage_clear (c : Crypto) : call unit
(* pvtsutils, JSON, random numbers *)
| Convert_FromUtf8String (s : string) : call bytes
| Convert_ToUtf8String (b : bytes) : call string
| Convert_ToHex (b : bytes) : call string
| JSON_stringify (d : Data) : call string
| JSON_parse (s : string) : call Jwk
| getRandomValues (n : nat) : call bytes.


(** ** Handler code

    The body of an [async] function: it returns, throws, calls foreign code
    and goes on with the answer, or reads and extends [memoryStorage]. *)

Inductive Prog (R : Type) : Type :=
| Ret (r : R)
| Throw (e : JsError)
| Call {X : Type} (c : call X) (k : X → Prog R)
| ReadStorage (k : list ServiceCryptoItem.t → Prog R)
| Push (item : ServiceCryptoItem.t) (k : Prog R).
Arguments Ret {R} r.
Arguments Throw {R} e.
Arguments Call {R X} c k.
Arguments ReadStorage {R} k.
Arguments Push {R} item k.

Fixpoint bind {A B} (f : A → Prog B) (p : Prog A) : Prog B :=
  match p with
  | Ret r => f r
  | Throw e => Throw e
  | Call c k => Call c (λ x, bind f (k x))
  | ReadStorage k => ReadStorage (λ ms, bind f (k ms))
  | Push item k => Push item (bind f k)
  end.

Global Instance Prog_ret : MRet Prog := @Ret.
Global Instance Prog_bind : MBind Prog := @bind.

(** What a handler is seen to do: a call together with its answer, or a
    [push] onto [memoryStorage]. *)
Inductive Observed : Type :=
| Answer {X : Type} (c : call X) (r : JsError + X)
| Stored (item : ServiceCryptoItem.t).

(** [await c], also used for a synchronous call of foreign code. *)
Definition await {X} (c : call X) : Prog X := Call c Ret.
(** [this.memoryStorage.push(item)] *)
Definition push (item : ServiceCryptoItem.t) : Prog unit := Push item (Ret ()).
(** [this.memoryStorage] *)
Definition memoryStorage : Prog (list ServiceCryptoItem.t) := ReadStorage Ret.

(** The environment answers each call and moves on; [W] is the state of
    everything outside the server object. *)
Definition Env (W : Type) : Type := ∀ X, call X → W → (JsError + X) * W.

(** How a handler ended, where it left [memoryStorage] and the world, and
    what it did, in order. *)
Record Outcome (W R : Type) : Type := mkOutcome {
  result : JsError + R;
  storage : list ServiceCryptoItem.t;
  world : W;
  trace : list Observed
}.
Arguments mkOutcome {W R} result storage world trace.
Arguments result {W R} o.
Arguments storage {W R} o.
Arguments world {W R} o.
Arguments trace {W R} o.

Definition observe {W R} (o : Observed) (out : Outcome W R) : Outcome W R :=
  mkOutcome (result out) (storage out) (world out) (o :: trace out).

(** [exec env p ms w]: the run of one handler from the registry [ms] and
    the world [w], with no other handler at work while it waits for an
    answer.  The run among other handlers is [Dispatch.exec_among]. *)
Fixpoint exec {W R} (env : Env W) (p : Prog R)
    (ms : list ServiceCryptoItem.t) (w : W) : Outcome W R :=
  match p with
  | Ret r => mkOutcome (inr r) ms w []
  | Throw e => mkOutcome (inl e) ms w []
  | Call c k =>
      match env _ c w with
      | (inl e, w') => mkOutcome (inl e) ms w' [Answer c (inl e)]
      | (inr x, w') => observe (Answer c (inr x)) (exec env (k x) ms w')
      end
  | ReadStorage k => exec env (k ms) ms w
  | Push item k => observe (Stored item) (exec env k (ms ++ [item]) w)
  end.

(** The keys that an observed [subtle.generateKey] answered with. *)
Definition generated (o : Observed) : option GeneratedKeys :=
  match o with
  | @Answer X c r =>
      match c in call X return JsError + X → option GeneratedKeys with
      | subtle_generateKey _ _ _ _ =>
          λ r, match r with inr keys => Some keys | inl _ => None end
      | _ => λ _, None
      end r
  | Stored _ => None
  end.

(** The usages that an observed [keyStorage.getItem] was called with. *)
Definition getItem_usages (o : Observed) : option (Maybe (list string)) :=
  match o with
  | @Answer X c _ =>
      match c with
      | keyStorage_getItem _ _ _ usages => Some usages
      | _ => None
      end
  | Stored _ => None
  end.

(** Whether an observation is a call of [keyStorage.clear], or of
    [certStorage.clear]. *)
Definition is_keyStorage_clear (o : Observed) : bool :=
  match o with
  | @Answer X c _ => match c with keyStorage_clear _ => true | _ => false end
  | Stored _ => false
  end.

Definition is_certStorage_clear (o : Observed) : bool :=
  match o with
  | @Answer X c _ => match c with certStorage_clear _ => true | _ => false end
  | Stored _ => false
  end.

(** ** The handle registry *)

(** The module constant [crypto]. *)
Definition crypto : Crypto := ossl.

(** Truthiness of a crypto object: every object is truthy. *)
Definition truthy_crypto (c : Crypto) : bool := true.

(** The test of the callback of [getItemFromStorage]. *)
Definition same_handle (cryptoItem : CryptoItemProto.t) (item : ServiceCryptoItem.t) : bool :=
  bool_decide (ServiceCryptoItem.id item = CryptoItemProto.id cryptoItem)
  && bool_decide (ServiceCryptoItem.providerID item = CryptoItemProto.providerID cryptoItem)
  && bool_decide (item_type (ServiceCryptoItem.item item) = CryptoItemProto.type cryptoItem).

(** [memoryStorage.some(callback)]: the callback stores a matching item in
    [foundKey] and returns [!!foundKey]; [some] stops at the first [true]. *)
Fixpoint some_found (cryptoItem : CryptoItemProto.t) (ms : list ServiceCryptoItem.t)
    (foundKey : option ServiceCryptoItem.t) : option ServiceCryptoItem.t :=
  match ms with
  | [] => foundKey
  | item :: ms =>
      let foundKey := if same_handle cryptoItem item then Some item else foundKey in
      if bool_decide (is_Some foundKey) then foundKey
      else some_found cryptoItem ms foundKey
  end.

(** [getItemFromStorage(cryptoItem)] on the registry [ms]; [None] is
    [undefined]. *)
Definition getItemFromStorage (ms : list ServiceCryptoItem.t)
    (cryptoItem : CryptoItemProto.t) : JsError + option ServiceCryptoItem.t :=
  let foundKey := some_found cryptoItem ms None in
  if negb (bool_decide (is_Some foundKey)) then
    if negb (truthy_crypto crypto) then
      inl (Error ("Cannot get CryptoItem by ID '" +:+ CryptoItemProto.id cryptoItem +:+ "'"))
    else inr foundKey
  else inr foundKey.

(** [this.getItemFromStorage(cryptoItem).item] *)
Definition storageItem (cryptoItem : CryptoItemProto.t) : Prog CryptoItem :=
  ms ← memoryStorage;
  match getItemFromStorage ms cryptoItem with
  | inl e => Throw e
  | inr None => Throw (TypeError "Cannot read property 'item' of undefined")
  | inr (Some found) => Ret (ServiceCryptoItem.item found)
  end.

(** ** The thumbprint *)

Definition GetIdentity (key : CryptoKey.t) (provider : Crypto) : Prog string :=
  if bool_decide (CryptoKey.type key ≠ "public") then
    rndBytes ← await (getRandomValues 32);
    await (Convert_ToHex rndBytes)
  else
    jwk ← await (subtle_exportKey provider "jwk" (Key key));
    osslKey ← await (subtle_importKey crypto "jwk" jwk (CryptoKey.algorithm key)
                                      true (CryptoKey.usages key));
    raw ← await (subtle_exportKey crypto "spki" (Key osslKey));
    thumbprint ← await (subtle_digest crypto (ByName "SHA-256") raw);
    await (Convert_ToHex thumbprint).

(** [new Uint8Array([b ? 1 : 0]).buffer] *)
Definition flag (b : bool) : Data :=
  ArrayBuffer [if b then Byte.x01 else Byte.x00].

(** [isEmpty() ? null : algorithm] *)
Definition algorithm_or_null (a : Algorithm) : Prog (Maybe Algorithm) :=
  empty ← await (isEmpty a);
  Ret (if empty : bool then null else defined a).

(** [keyUsages ? null : keyUsages] *)
Definition usages_argument (keyUsages : Maybe (list string)) : Maybe (list string) :=
  if truthy_object keyUsages then null else keyUsages.

(** [format.toLowerCase() === "jwk"] *)
Definition is_jwk (format : string) : bool :=
  bool_decide (toLowerCase format = "jwk").

(** ** The dispatcher: the body of each [case] of [onMessage], up to the
    value of [data] *)

Definition handle (k : ActionClass) (action : ActionProto.t) : Prog (option Data) :=
  match k with
  | ProviderInfoAction =>
      info ← await provider_info;
      data ← await (exportProto (OfInfo info));
      Ret (Some (ArrayBuffer data))
  | ProviderGetCryptoAction =>
      getCryptoParams ← await (importProto ProviderGetCryptoAction action);
      await (provider_getCrypto (ProviderGetCryptoActionProto.cryptoID getCryptoParams));;
      Ret None
  | IsLoggedInAction =>
      params ← await (importProto IsLoggedInAction action);
      crypto ← await (provider_getCrypto (IsLoggedInActionProto.providerID params));
      loggedIn ← await (isLoggedIn crypto);
      Ret (Some (flag loggedIn))
  | LoginAction =>
      params ← await (importProto LoginAction action);
      crypto ← await (provider_getCrypto (LoginActionProto.providerID params));
      can ← await (has_login crypto);
      if can : bool then
        reply ← await notifier_notify;
        if bool_decide (reply.1 ≠ "replied") then
          Throw (Error "CryptoLogin timeout")
        else
          match reply.2 with
          | defined activationValue =>
              await (login crypto activationValue);;
              Ret None
          | null => Throw (TypeError "Cannot read property 'activationValue' of null")
          | undefined =>
              Throw (TypeError "Cannot read property 'activationValue' of undefined")
          end
      else Ret None
  | DigestAction =>
      params ← await (importProto DigestAction action);
      crypto ← await (provider_getCrypto (DigestActionProto.providerID params));
      data ← await (subtle_digest crypto (ByObject (DigestActionProto.algorithm params))
                                  (ArrayBuffer (DigestActionProto.data params)));
      Ret (Some (ArrayBuffer data))
  | GenerateKeyAction =>
      params ← await (importProto GenerateKeyAction action);
      crypto ← await (provider_getCrypto (GenerateKeyActionProto.providerID params));
      keys ← await (subtle_generateKey crypto (GenerateKeyActionProto.algorithm params)
                      (GenerateKeyActionProto.extractable params)
                      (GenerateKeyActionProto.usage params));
      keyProto ←
        match keys with
        | KeyPair pub priv =>
            thumbprint ← GetIdentity pub crypto;
            let publicKey := ServiceCryptoItem.mk thumbprint (Key pub)
                               (GenerateKeyActionProto.providerID params) in
            let privateKey := ServiceCryptoItem.mk thumbprint (Key priv)
                                (GenerateKeyActionProto.providerID params) in
            push publicKey;;
            push privateKey;;
            Ret (OfKeyPair (CryptoKeyPairProto.mk (ServiceCryptoItem.toProto privateKey)
                                                  (ServiceCryptoItem.toProto publicKey)))
        | SingleKey key =>
            thumbprint ← GetIdentity key crypto;
            let secretKey := ServiceCryptoItem.mk thumbprint (Key key)
                               (GenerateKeyActionProto.providerID params) in
            push secretKey;;
            Ret (OfItem (ServiceCryptoItem.toProto secretKey))
        end;
      data ← await (exportProto keyProto);
      Ret (Some (ArrayBuffer data))
  | SignAction =>
      params ← await (importProto SignAction action);
      crypto ← await (provider_getCrypto (SignActionProto.providerID params));
      key ← storageItem (SignActionProto.key params);
      alg ← await (toAlgorithm (SignActionProto.algorithm params));
      data ← await (subtle_sign crypto alg key (SignActionProto.data params));
      Ret (Some (ArrayBuffer data))
  | VerifyAction =>
      params ← await (importProto VerifyAction action);
      crypto ← await (provider_getCrypto (VerifyActionProto.providerID params));
      key ← storageItem (VerifyActionProto.key params);
      alg ← await (toAlgorithm (VerifyActionProto.algorithm params));
      ok ← await (subtle_verify crypto alg key (VerifyActionProto.signature params)
                                (VerifyActionProto.data params));
      Ret (Some (flag ok))
  | EncryptAction =>
      params ← await (importProto EncryptAction action);
      crypto ← await (provider_getCrypto (EncryptActionProto.providerID params));
      key ← storageItem (EncryptActionProto.key params);
      alg ← await (toAlgorithm (EncryptActionProto.algorithm params));
      data ← await (subtle_encrypt crypto alg key (EncryptActionProto.data params));
      Ret (Some (ArrayBuffer data))
  | DecryptAction =>
      params ← await (importProto DecryptAction action);
      crypto ← await (provider_getCrypto (DecryptActionProto.providerID params));
      key ← storageItem (DecryptActionProto.key params);
      alg ← await (toAlgorithm (DecryptActionProto.algorithm params));
      data ← await (subtle_decrypt crypto alg key (DecryptActionProto.data params));
      Ret (Some (ArrayBuffer data))
  | DeriveBitsAction =>
      params ← await (importProto DeriveBitsAction action);
      crypto ← await (provider_getCrypto (DeriveBitsActionProto.providerID params));
      key ← storageItem (DeriveBitsActionProto.key params);
      alg ← await (toAlgorithm (DeriveBitsActionProto.algorithm params));
      raw ← await (get_public alg);
      publicKey ← await (CryptoKeyProto_importProto raw);
      found ← storageItem publicKey;
      await (set_public alg found);;
      data ← await (subtle_deriveBits crypto alg key (DeriveBitsActionProto.length params));
      Ret (Some (ArrayBuffer data))
  | DeriveKeyAction =>
      params ← await (importProto DeriveKeyAction action);
      crypto ← await (provider_getCrypto (DeriveKeyActionProto.providerID params));
      key ← storageItem (DeriveKeyActionProto.key params);
      alg ← await (toAlgorithm (DeriveKeyActionProto.algorithm params));
      raw ← await (get_public alg);
      publicKey ← await (CryptoKeyProto_importProto raw);
      found ← storageItem publicKey;
      await (set_public alg found);;
      derivedKey ← await (subtle_deriveKey crypto alg key
                            (DeriveKeyActionProto.derivedKeyType params)
                            (DeriveKeyActionProto.extractable params)
                            (DeriveKeyActionProto.usage params));
      thumbprint ← GetIdentity derivedKey crypto;
      let resKey := ServiceCryptoItem.mk thumbprint (Key derivedKey)
                      (DeriveKeyActionProto.providerID params) in
      push resKey;;
      data ← await (exportProto (OfItem (ServiceCryptoItem.toProto resKey)));
      Ret (Some (ArrayBuffer data))
  | WrapKeyAction =>
      params ← await (importProto WrapKeyAction action);
      crypto ← await (provider_getCrypto (WrapKeyActionProto.providerID params));
      key ← storageItem (WrapKeyActionProto.key params);
      wrappingKey ← storageItem (WrapKeyActionProto.wrappingKey params);
      alg ← await (toAlgorithm (WrapKeyActionProto.wrapAlgorithm params));
      data ← await (subtle_wrapKey crypto (WrapKeyActionProto.format params)
                                   key wrappingKey alg);
      Ret (Some (ArrayBuffer data))
  | UnwrapKeyAction =>
      params ← await (importProto UnwrapKeyAction action);
      crypto ← await (provider_getCrypto (UnwrapKeyActionProto.providerID params));
      unwrappingKey ← storageItem (UnwrapKeyActionProto.unwrappingKey params);
      unwrapAlg ← await (toAlgorithm (UnwrapKeyActionProto.unwrapAlgorithm params));
      keyAlg ← await (toAlgorithm (UnwrapKeyActionProto.unwrappedKeyAlgorithm params));
      key ← await (subtle_unwrapKey crypto (UnwrapKeyActionProto.format params)
                     (UnwrapKeyActionProto.wrappedKey params) unwrappingKey
                     unwrapAlg keyAlg
                     (UnwrapKeyActionProto.extractable params)
                     (UnwrapKeyActionProto.keyUsage params));
      thumbprint ← GetIdentity key crypto;
      let resKey := ServiceCryptoItem.mk thumbprint (Key key)
                      (UnwrapKeyActionProto.providerID params) in
      push resKey;;
      data ← await (exportProto (OfItem (ServiceCryptoItem.toProto resKey)));
      Ret (Some (ArrayBuffer data))
  | ExportKeyAction =>
      params ← await (importProto ExportKeyAction action);
      crypto ← await (provider_getCrypto (ExportKeyActionProto.providerID params));
      key ← storageItem (ExportKeyActionProto.key params);
      exportedData ← await (subtle_exportKey crypto (ExportKeyActionProto.format params) key);
      if is_jwk (ExportKeyActionProto.format params) then
        json ← await (JSON_stringify exportedData);
        data ← await (Convert_FromUtf8String json);
        Ret (Some (ArrayBuffer data))
      else
        Ret (Some exportedData)
  | ImportKeyAction =>
      params ← await (importProto ImportKeyAction action);
      crypto ← await (provider_getCrypto (ImportKeyActionProto.providerID params));
      keyData ←
        (if is_jwk (ImportKeyActionProto.format params) then
           json ← await (Convert_ToUtf8String (ImportKeyActionProto.keyData params));
           jwk ← await (JSON_parse json);
           Ret (JsonWebKey jwk)
         else
           Ret (ArrayBuffer (ImportKeyActionProto.keyData params)));
      alg ← await (toAlgorithm (ImportKeyActionProto.algorithm params));
      key ← await (subtle_importKey crypto (ImportKeyActionProto.format params) keyData alg
                     (ImportKeyActionProto.extractable params)
                     (ImportKeyActionProto.keyUsages params));
      thumbprint ← GetIdentity key crypto;
      let resKey := ServiceCryptoItem.mk thumbprint (Key key)
                      (ImportKeyActionProto.providerID params) in
      push resKey;;
      data ← await (exportProto (OfItem (ServiceCryptoItem.toProto resKey)));
      Ret (Some (ArrayBuffer data))
  | KeyStorageGetItemAction =>
      params ← await (importProto KeyStorageGetItemAction action);
      crypto ← await (provider_getCrypto (KeyStorageGetItemActionProto.providerID params));
      alg ← algorithm_or_null (KeyStorageGetItemActionProto.algorithm params);
      key ← await (keyStorage_getItem crypto (KeyStorageGetItemActionProto.key params) alg
                     (usages_argument (KeyStorageGetItemActionProto.keyUsages params)));
      match key with
      | defined key =>
          thumbprint ← GetIdentity key crypto;
          let cryptoKey := ServiceCryptoItem.mk thumbprint (Key key)
                             (KeyStorageGetItemActionProto.providerID params) in
          push cryptoKey;;
          data ← await (exportProto (OfItem (ServiceCryptoItem.toProto cryptoKey)));
          Ret (Some (ArrayBuffer data))
      | _ =>
          Throw (Error ("Cannot get key by identity '"
                        +:+ KeyStorageGetItemActionProto.key params +:+ "'"))
      end
  | KeyStorageSetItemAction =>
      params ← await (importProto KeyStorageSetItemAction action);
      key ← storageItem (KeyStorageSetItemActionProto.item params);
      crypto ← await (provider_getCrypto (KeyStorageSetItemActionProto.providerID params));
      index ← await (keyStorage_setItem crypto key);
      data ← await (Convert_FromUtf8String index);
      Ret (Some (ArrayBuffer data))
  | KeyStorageRemoveItemAction =>
      params ← await (importProto KeyStorageRemoveItemAction action);
      crypto ← await (provider_getCrypto (KeyStorageRemoveItemActionProto.providerID params));
      await (keyStorage_removeItem crypto (KeyStorageRemoveItemActionProto.key params));;
      Ret None
  | KeyStorageKeysAction =>
      params ← await (importProto KeyStorageKeysAction action);
      crypto ← await (provider_getCrypto (KeyStorageKeysActionProto.providerID params));
      keys ← await (keyStorage_keys crypto);
      data ← await (ArrayStringConverter_set keys);
      Ret (Some (ArrayBuffer data))
  | KeyStorageClearAction =>
      params ← await (importProto KeyStorageClearAction action);
      crypto ← await (provider_getCrypto (KeyStorageClearActionProto.providerID params));
      await (certStorage_clear crypto);;
      Ret None
  | CertificateStorageGetItemAction =>
      params ← await (importProto CertificateStorageGetItemAction action);
      crypto ← await (provider_getCrypto (CertificateStorageGetItemActionProto.providerID params));
      alg ← algorithm_or_null (CertificateStorageGetItemActionProto.algorithm params);
      item ← await (certStorage_getItem crypto
                      (CertificateStorageGetItemActionProto.key params) alg
                      (usages_argument (CertificateStorageGetItemActionProto.keyUsages params)));
      match item with
      | defined item =>
          thumbprint ← GetIdentity (CryptoCertificate.publicKey item) crypto;
          let cryptoKey := ServiceCryptoItem.mk thumbprint
                             (Key (CryptoCertificate.publicKey item))
                             (CertificateStorageGetItemActionProto.providerID params) in
          push cryptoKey;;
          let cryptoCert := ServiceCryptoItem.mk thumbprint (Certificate item)
                              (CertificateStorageGetItemActionProto.providerID params) in
          push cryptoCert;;
          data ← await (exportProto (OfItem (ServiceCryptoItem.toProto cryptoCert)));
          Ret (Some (ArrayBuffer data))
      | null => Throw (TypeError "Cannot read property 'publicKey' of null")
      | undefined => Throw (TypeError "Cannot read property 'publicKey' of undefined")
      end
  | CertificateStorageSetItemAction =>
      params ← await (importProto CertificateStorageSetItemAction action);
      crypto ← await (provider_getCrypto (CertificateStorageSetItemActionProto.providerID params));
      cert ← storageItem (CertificateStorageSetItemActionProto.item params);
      index ← await (certStorage_setItem crypto cert);
      data ← await (Convert_FromUtf8String index);
      Ret (Some (ArrayBuffer data))
  | CertificateStorageRemoveItemAction =>
      params ← await (importProto CertificateStorageRemoveItemAction action);
      crypto ← await (provider_getCrypto
                        (CertificateStorageRemoveItemActionProto.providerID params));
      await (certStorage_removeItem crypto (CertificateStorageRemoveItemActionProto.key params));;
      Ret None
  | CertificateStorageImportAction =>
      params ← await (importProto CertificateStorageImportAction action);
      crypto ← await (provider_getCrypto (CertificateStorageImportActionProto.providerID params));
      item ← await (certStorage_importCert crypto
                      (CertificateStorageImportActionProto.type params)
                      (CertificateStorageImportActionProto.data params)
                      (CertificateStorageImportActionProto.algorithm params)
                      (CertificateStorageImportActionProto.keyUsages params));
      thumbprint ← GetIdentity (CryptoCertificate.publicKey item) crypto;
      let cryptoKey := ServiceCryptoItem.mk thumbprint
                         (Key (CryptoCertificate.publicKey item))
                         (CertificateStorageImportActionProto.providerID params) in
      push cryptoKey;;
      let cryptoCert := ServiceCryptoItem.mk thumbprint (Certificate item)
                          (CertificateStorageImportActionProto.providerID params) in
      push cryptoCert;;
      data ← await (exportProto (OfItem (ServiceCryptoItem.toProto cryptoCert)));
      Ret (Some (ArrayBuffer data))
  | CertificateStorageExportAction =>
      params ← await (importProto CertificateStorageExportAction action);
      crypto ← await (provider_getCrypto (CertificateStorageExportActionProto.providerID params));
      cert ← storageItem (CertificateStorageExportActionProto.item params);
      exportedData ← await (certStorage_exportCert crypto
                              (CertificateStorageExportActionProto.format params) cert);
      match exportedData with
      | inl buffer => Ret (Some (ArrayBuffer buffer))
      | inr text =>
          data ← await (Convert_FromUtf8String text);
          Ret (Some (ArrayBuffer data))
      end
  | CertificateStorageKeysAction =>
      params ← await (importProto CertificateStorageKeysAction action);
      crypto ← await (provider_getCrypto (CertificateStorageKeysActionProto.providerID params));
      keys ← await (certStorage_keys crypto);
      data ← await (ArrayStringConverter_set keys);
      Ret (Some (ArrayBuffer data))
  | CertificateStorageClearAction =>
      params ← await (importProto CertificateStorageKeysAction action);
      crypto ← await (provider_getCrypto (CertificateStorageKeysActionProto.providerID params));
      await (certStorage_clear crypto);;
      Ret None
  end.

(** ** Sessions and the envelope of a reply *)

Module Session.
(** The members of a session of ../connection/server that the dispatcher
    reads; [ref] tells the session objects apart. *)
Record t : Type := mk { cipher : Maybe nat; authorized : bool; ref : nat }.
End Session.

Global Instance Session_eq_dec : EqDecision Session.t.
Proof. solve_decision. Defined.

(** Modelled from the spec: [new ResultProto(action)] (../core/proto is not
    among the sources).  A result envelope carries the [actionId] and the
    [action] of the action it answers; [data] and [error] start out
    absent. *)
Definition new_ResultProto (action : ActionProto.t) : ResultProto.t :=
  ResultProto.mk (ActionProto.actionId action) (ActionProto.action action) None None.

(** [resultProto.data = data] *)
Definition set_data (data : option Data) (r : ResultProto.t) : ResultProto.t :=
  ResultProto.mk (ResultProto.actionId r) (ResultProto.action r) data (ResultProto.error r).

(** What the listener of ["message"] leaves behind: the envelope handed to
    [e.resolve] or made by [e.reject], the session, the registry, the world
    and the calls made. *)
Record Delivery (W : Type) : Type := mkDelivery {
  reply : ResultProto.t;
  session_after : Session.t;
  storage_after : list ServiceCryptoItem.t;
  world_after : W;
  calls_made : list Observed
}.
Arguments mkDelivery {W} reply session_after storage_after world_after calls_made.
Arguments reply {W} d.
Arguments session_after {W} d.
Arguments storage_after {W} d.
Arguments world_after {W} d.
Arguments calls_made {W} d.

Section Dispatch.

(** The [ACTION] tag of each action class (../core/protos is not among the
    sources). *)
Variable ACTION : ActionClass → string.

(** [switch (action.action)]: the first [case] whose label is strictly
    equal to the tag. *)
Definition switch (tag : string) : option ActionClass :=
  List.find (λ k, bool_decide (tag = ACTION k)) cases.

Definition onMessage (session : Session.t) (action : ActionProto.t) : Prog ResultProto.t :=
  let resultProto := new_ResultProto action in
  match switch (ActionProto.action action) with
  | Some k =>
      data ← handle k action;
      Ret (set_data data resultProto)
  | None =>
      Throw (Error ("Unknown action '" +:+ ActionProto.action action +:+ "'"))
  end.

(** Modelled from the spec: the [reject] of a message event of
    ../connection/server, which is not among the sources.  Whatever a
    handler throws becomes a result envelope whose [error] is the message
    and whose [data] is absent; the session is left as it is. *)
Definition reject_message (action : ActionProto.t) (e : JsError) : ResultProto.t :=
  ResultProto.mk (ActionProto.actionId action) (ActionProto.action action)
                 None (Some (message e)).

(** The listener of ["message"]:
    [this.onMessage(e.session, e.message).then(e.resolve, e.reject)]. *)
Definition on_message {W} (env : Env W) (session : Session.t) (action : ActionProto.t)
    (ms : list ServiceCryptoItem.t) (w : W) : Delivery W :=
  let out := exec env (onMessage session action) ms w in
  mkDelivery
    (match result out with
     | inr resultProto => resultProto
     | inl e => reject_message action e
     end)
    session (storage out) (world out) (trace out).

End Dispatch.

(** ** Token events *)

(** An element of [info.added] or [info.removed]: what the provider put
    there, or [new ProviderCryptoProto(item)] of an element. *)
Inductive TokenItem : Type :=
| Plain (info : ProviderCryptoInfo.t)
| ProviderCryptoProto (item : TokenItem).

Module TokenInfo.
Record t : Type := mk { added : list TokenItem; removed : list TokenItem }.
End TokenInfo.

(** What the dispatcher passes to [server.send]. *)
Inductive EventProto : Type :=
| ProviderTokenEventProto (info : TokenInfo.t)
| ProviderAuthorizedEventProto.

(** [session.cipher && session.authorized] *)
Definition cipher_and_authorized (session : Session.t) : bool :=
  truthy_object (Session.cipher session) && Session.authorized session.

(** The listener of the provider's ["token"] event, over
    [this.sessions]: the calls of [server.send] in order, and [info] as the
    loop leaves it (it rewrites the arrays of [info] in place for each
    session that it serves). *)
Fixpoint on_token (sessions : list Session.t) (info : TokenInfo.t)
    : list (Session.t * EventProto) * TokenInfo.t :=
  match sessions with
  | [] => ([], info)
  | session :: sessions =>
      if cipher_and_authorized session then
        let info := TokenInfo.mk (ProviderCryptoProto <$> TokenInfo.added info)
                                 (ProviderCryptoProto <$> TokenInfo.removed info) in
        let rest := on_token sessions info in
        ((session, ProviderTokenEventProto info) :: rest.1, rest.2)
      else on_token sessions info
  end.

(** The listener of ["connect"]. *)
Definition on_connect (session : Session.t) (sessions : list Session.t) : list Session.t :=
  if negb (bool_decide (length sessions ≠ 0)
           && existsb (λ item, bool_decide (item = session)) sessions)
  then sessions ++ [session]
  else sessions.

(** The listener of ["auth"]. *)
Definition on_auth (session : Session.t) : Session.t * EventProto :=
  (session, ProviderAuthorizedEventProto).

(** Sequencing of outcomes: [f] goes on from where [o] ended, unless [o]
    ended with an exception. *)
Definition and_then {W A B} (o : Outcome W A)
    (f : A → list ServiceCryptoItem.t → W → Outcome W B) : Outcome W B :=
  match result o with
  | inl e => mkOutcome (inl e) (storage o) (world o) (trace o)
  | inr a =>
      let o' := f a (storage o) (world o) in
      mkOutcome (result o') (storage o') (world o') (trace o ++ trace o')
  end.

End LocalServer.

(** * A provider for the examples

    A small stand-in for the foreign code: fixed tags, a codec that hands
    out the parameters of one request, and a provider with a key storage,
    a certificate storage and a counter for its random bytes. *)

Module Sample.
Import LocalServer.

Definition ACTION (k : ActionClass) : string :=
  match k with
  | ProviderInfoAction => "provider/action/info"
  | ProviderGetCryptoAction => "provider/action/getCrypto"
  | IsLoggedInAction => "crypto/isLoggedIn"
  | LoginAction => "crypto/login"
  | DigestAction => "crypto/subtle/digest"
  | GenerateKeyAction => "crypto/subtle/generateKey"
  | SignAction => "crypto/subtle/sign"
  | VerifyAction => "crypto/subtle/verify"
  | EncryptAction => "crypto/subtle/encrypt"
  | DecryptAction => "crypto/subtle/decrypt"
  | DeriveBitsAction => "crypto/subtle/deriveBits"
  | DeriveKeyAction => "crypto/subtle/deriveKey"
  | WrapKeyAction => "crypto/subtle/wrapKey"
  | UnwrapKeyAction => "crypto/subtle/unwrapKey"
  | ExportKeyAction => "crypto/subtle/exportKey"
  | ImportKeyAction => "crypto/subtle/importKey"
  | KeyStorageGetItemAction => "crypto/keyStorage/getItem"
  | KeyStorageSetItemAction => "crypto/keyStorage/setItem"
  | KeyStorageRemoveItemAction => "crypto/keyStorage/removeItem"
  | KeyStorageKeysAction => "crypto/keyStorage/keys"
  | KeyStorageClearAction => "crypto/keyStorage/clear"
  | CertificateStorageGetItemAction => "crypto/certificateStorage/getItem"
  | CertificateStorageSetItemAction => "crypto/certificateStorage/setItem"
  | CertificateStorageRemoveItemAction => "crypto/certificateStorage/removeItem"
  | CertificateStorageImportAction => "crypto/certificateStorage/import"
  | CertificateStorageExportAction => "crypto/certificateStorage/export"
  | CertificateStorageKeysAction => "crypto/certificateStorage/keys"
  | CertificateStorageClearAction => "crypto/certificateStorage/clear"
  end.

(** A result codec for the client: the first byte tells whether the reply
    is an error, the rest is the [actionId]. *)
Definition importResult (message : bytes) : JsError + ResultProto.t :=
  match message with
  | [] => inl (Error "Cannot parse message")
  | b :: id =>
      inr (if Byte.eqb b Byte.x00
           then ResultProto.mk (string_of_list_byte id) "reply" (Some (ArrayBuffer [])) None
           else ResultProto.mk (string_of_list_byte id) "reply" None (Some "failed"))
  end.

Inductive Request : Type :=
| GenerateKeyRequest (p : GenerateKeyActionProto.t)
| SignRequest (p : SignActionProto.t)
| ExportKeyRequest (p : ExportKeyActionProto.t)
| ImportKeyRequest (p : ImportKeyActionProto.t)
| KeyStorageGetItemRequest (p : KeyStorageGetItemActionProto.t)
| KeyStorageClearRequest (p : KeyStorageClearActionProto.t).

Definition malformed {X : Type} : JsError + X := inl (Error "Cannot decode message").

Definition decode (req : Request) (k : ActionClass) : JsError + Params k :=
  match k return JsError + Params k with
  | GenerateKeyAction => match req with GenerateKeyRequest p => inr p | _ => malformed end
  | SignAction => match req with SignRequest p => inr p | _ => malformed end
  | ExportKeyAction => match req with ExportKeyRequest p => inr p | _ => malformed end
  | ImportKeyAction => match req with ImportKeyRequest p => inr p | _ => malformed end
  | KeyStorageGetItemAction =>
      match req with KeyStorageGetItemRequest p => inr p | _ => malformed end
  | KeyStorageClearAction =>
      match req with KeyStorageClearRequest p => inr p | _ => malformed end
  | _ => malformed
  end.

Record World : Type := mkWorld {
  keyStorage : list (string * CryptoKey.t);
  certStorage : list (string * CryptoCertificate.t);
  entropy : N
}.

Definition hex_digit (n : N) : ascii :=
  ascii_of_N (if decide (n < 10)%N then 48 + n else 87 + n)%N.

Definition ToHex (b : bytes) : string :=
  foldr (λ x s, String (hex_digit (Byte.to_N x / 16))
                  (String (hex_digit (Byte.to_N x mod 16)) s)) EmptyString b.

Definition encode (p : ObjectProto) : bytes :=
  match p with
  | OfInfo p => list_byte_of_string (ProviderInfoProto.name p)
  | OfItem p => list_byte_of_string (CryptoItemProto.id p)
  | OfKeyPair p =>
      list_byte_of_string (CryptoItemProto.id (CryptoKeyPairProto.privateKey p))
      ++ list_byte_of_string (CryptoItemProto.id (CryptoKeyPairProto.publicKey p))
  end.

Definition getCrypto (id : string) : JsError + Crypto :=
  if bool_decide (id = "p1") then inr (ProviderCrypto 1)
  else if bool_decide (id = "p2") then inr (ProviderCrypto 2)
  else inl (Error "Cannot get crypto by given ID").

Definition stringify (d : Data) : string :=
  match d with
  | ArrayBuffer _ => "{}"
  | JsonWebKey j => foldr (λ m s, m.1 +:+ "=" +:+ m.2 +:+ ";" +:+ s) EmptyString j
  end.

Definition provider (req : Request) : Env World :=
  λ X c w,
    match c in call X return (JsError + X) * World with
    | importProto k _ => (decode req k, w)
    | exportProto p => (inr (encode p), w)
    | isEmpty a => (inr (bool_decide (a = AlgorithmObject 0)), w)
    | toAlgorithm a => (inr a, w)
    | provider_getCrypto id => (getCrypto id, w)
    | subtle_generateKey _ alg extractable usage =>
        (inr (KeyPair (CryptoKey.mk "public" alg true ["verify"] 1)
                      (CryptoKey.mk "private" alg extractable ["sign"] 2)), w)
    | subtle_exportKey _ format _ =>
        (inr (if bool_decide (format = "jwk")
              then JsonWebKey [("kty", "RSA"); ("e", "AQAB")]
              else ArrayBuffer [Byte.x30; Byte.x82]), w)
    | subtle_importKey _ _ _ alg extractable keyUsages =>
        (inr (CryptoKey.mk "public" alg extractable keyUsages 3), w)
    | subtle_digest _ _ _ => (inr [Byte.xab; Byte.xcd], w)
    | keyStorage_getItem _ key _ _ =>
        (inr (match List.find (λ e, bool_decide (e.1 = key)) (keyStorage w) with
              | Some e => defined e.2
              | None => null
              end), w)
    | keyStorage_clear _ => (inr (), mkWorld [] (certStorage w) (entropy w))
    | certStorage_clear _ => (inr (), mkWorld (keyStorage w) [] (entropy w))
    | Convert_FromUtf8String s => (inr (list_byte_of_string s), w)
    | Convert_ToUtf8String b => (inr (string_of_list_byte b), w)
    | Convert_ToHex b => (inr (ToHex b), w)
    | JSON_stringify d => (inr (stringify d), w)
    | JSON_parse s => (inr [("json", s)], w)
    | getRandomValues n =>
        (inr (replicate n (default Byte.x00 (Byte.of_N (entropy w mod 256)))),
         mkWorld (keyStorage w) (certStorage w) (entropy w + 1))
    | _ => (inl (Error "Not supported"), w)
    end.

End Sample.


(** Values for the examples. *)

Module Examples.
Import LocalServer.

Definition session : Session.t := Session.mk (defined 0) true 0.
Definition rsa : Algorithm := AlgorithmObject 1.
Definition stored_key : CryptoKey.t := CryptoKey.mk "secret" rsa true ["sign"] 9.
Definition stored_cert : CryptoCertificate.t :=
CryptoCertificate.mk "x509" (CryptoKey.mk "public" rsa true ["verify"] 10) 11.
Definition world : Sample.World :=
Sample.mkWorld [("k1", stored_key)] [("c1", stored_cert)] 0.
Definition request (tag : string) : ActionProto.t := ActionProto.mk tag "5" [].
Definition handle_of_p1 : ServiceCryptoItem.t :=
ServiceCryptoItem.mk "ab12" (Key (CryptoKey.mk "private" rsa false ["sign"] 2)) "p1".
End Examples.
(** * More of the dispatcher *)

Module Dispatch.
Import LocalServer.

(** The live keys and certificates that an observed provider operation
    was given. *)
Definition operands (o : Observed) : list CryptoItem :=
  match o with
  | @Answer X c _ =>
      match c with
      | subtle_sign _ _ key _ => [key]
      | subtle_verify _ _ key _ _ => [key]
      | subtle_encrypt _ _ key _ => [key]
      | subtle_decrypt _ _ key _ => [key]
      | subtle_deriveBits _ _ key _ => [key]
      | subtle_deriveKey _ _ key _ _ _ => [key]
      | subtle_wrapKey _ _ key wrappingKey _ => [key; wrappingKey]
      | subtle_unwrapKey _ _ _ unwrappingKey _ _ _ _ => [unwrappingKey]
      | subtle_exportKey _ _ key => [key]
      | set_public _ key => [key]
      | keyStorage_setItem _ key => [key]
      | certStorage_setItem _ cert => [cert]
      | certStorage_exportCert _ _ cert => [cert]
      | _ => []
      end
  | Stored _ => []
  end.

(** [key] is the live object of an entry of the registry [ms]. *)
Definition registered (ms : list ServiceCryptoItem.t) (key : CryptoItem) : Prop :=
  ∃ item, item ∈ ms ∧ ServiceCryptoItem.item item = key.

(** The actions that work on handles and make no new key. *)
Definition consumes_handles (k : ActionClass) : bool :=
  match k with
  | SignAction | VerifyAction | EncryptAction | DecryptAction
  | DeriveBitsAction | WrapKeyAction | ExportKeyAction
  | KeyStorageSetItemAction | CertificateStorageSetItemAction
  | CertificateStorageExportAction => true
  | _ => false
  end.

(** The actions whose [case] holds a [memoryStorage.push]. *)
Definition pushes (k : ActionClass) : bool :=
  match k with
  | GenerateKeyAction | DeriveKeyAction | UnwrapKeyAction | ImportKeyAction
  | KeyStorageGetItemAction | CertificateStorageGetItemAction
  | CertificateStorageImportAction => true
  | _ => false
  end.

(** The actions that answer with the handle of one new key. *)
Definition makes_one_key (k : ActionClass) : bool :=
  match k with
  | DeriveKeyAction | UnwrapKeyAction | ImportKeyAction
  | KeyStorageGetItemAction => true
  | _ => false
  end.

(** The actions that answer with the handle of a certificate. *)
Definition makes_certificate (k : ActionClass) : bool :=
  match k with
  | CertificateStorageGetItemAction | CertificateStorageImportAction => true
  | _ => false
  end.

(** [new ProviderCryptoProto(item)] of every element, [n] times over. *)
Definition wrapped (n : nat) (info : TokenInfo.t) : TokenInfo.t :=
  TokenInfo.mk (Nat.iter n (fmap ProviderCryptoProto) (TokenInfo.added info))
               (Nat.iter n (fmap ProviderCryptoProto) (TokenInfo.removed info)).

(** What an observed [keyStorage.getItem] was asked for and answered. *)
Definition getItem_answer (o : Observed) : option (string * Maybe CryptoKey.t) :=
  match o with
  | @Answer X c r =>
      match c in call X return JsError + X → option (string * Maybe CryptoKey.t) with
      | keyStorage_getItem _ key _ _ =>
          λ r, match r with inr found => Some (key, found) | inl _ => None end
      | _ => λ _, None
      end r
  | Stored _ => None
  end.

(** What the callback of an observed [notifier.notify] received. *)
Definition notified (o : Observed) : option (string * Maybe string) :=
  match o with
  | @Answer X c r =>
      match c in call X return JsError + X → option (string * Maybe string) with
      | notifier_notify => λ r, match r with inr v => Some v | inl _ => None end
      | _ => λ _, None
      end r
  | Stored _ => None
  end.

(** The PIN that an observed [crypto.login] was called with. *)
Definition login_pin (o : Observed) : option string :=
  match o with
  | @Answer X c _ => match c with login _ pin => Some pin | _ => None end
  | Stored _ => None
  end.

(** The answer of an observed [subtle.verify] or [crypto.isLoggedIn]. *)
Definition flag_answer (o : Observed) : option bool :=
  match o with
  | @Answer X c r =>
      match c in call X return JsError + X → option bool with
      | subtle_verify _ _ _ _ _ =>
          λ r, match r with inr ok => Some ok | inl _ => None end
      | isLoggedIn _ =>
          λ r, match r with inr ok => Some ok | inl _ => None end
      | _ => λ _, None
      end r
  | Stored _ => None
  end.

(** [params.providerID], for the classes whose parameters have one. *)
Definition providerID_of (k : ActionClass) : Params k → option string :=
  match k return Params k → option string with
  | ProviderInfoAction | ProviderGetCryptoAction => λ _, None
  | IsLoggedInAction => λ p, Some (IsLoggedInActionProto.providerID p)
  | LoginAction => λ p, Some (LoginActionProto.providerID p)
  | DigestAction => λ p, Some (DigestActionProto.providerID p)
  | GenerateKeyAction => λ p, Some (GenerateKeyActionProto.providerID p)
  | SignAction => λ p, Some (SignActionProto.providerID p)
  | VerifyAction => λ p, Some (VerifyActionProto.providerID p)
  | EncryptAction => λ p, Some (EncryptActionProto.providerID p)
  | DecryptAction => λ p, Some (DecryptActionProto.providerID p)
  | DeriveBitsAction => λ p, Some (DeriveBitsActionProto.providerID p)
  | DeriveKeyAction => λ p, Some (DeriveKeyActionProto.providerID p)
  | WrapKeyAction => λ p, Some (WrapKeyActionProto.providerID p)
  | UnwrapKeyAction => λ p, Some (UnwrapKeyActionProto.providerID p)
  | ExportKeyAction => λ p, Some (ExportKeyActionProto.providerID p)
  | ImportKeyAction => λ p, Some (ImportKeyActionProto.providerID p)
  | KeyStorageGetItemAction => λ p, Some (KeyStorageGetItemActionProto.providerID p)
  | KeyStorageSetItemAction => λ p, Some (KeyStorageSetItemActionProto.providerID p)
  | KeyStorageRemoveItemAction => λ p, Some (KeyStorageRemoveItemActionProto.providerID p)
  | KeyStorageKeysAction => λ p, Some (KeyStorageKeysActionProto.providerID p)
  | KeyStorageClearAction => λ p, Some (KeyStorageClearActionProto.providerID p)
  | CertificateStorageGetItemAction =>
      λ p, Some (CertificateStorageGetItemActionProto.providerID p)
  | CertificateStorageSetItemAction =>
      λ p, Some (CertificateStorageSetItemActionProto.providerID p)
  | CertificateStorageRemoveItemAction =>
      λ p, Some (CertificateStorageRemoveItemActionProto.providerID p)
  | CertificateStorageImportAction =>
      λ p, Some (CertificateStorageImportActionProto.providerID p)
  | CertificateStorageExportAction =>
      λ p, Some (CertificateStorageExportActionProto.providerID p)
  | CertificateStorageKeysAction => λ p, Some (CertificateStorageKeysActionProto.providerID p)
  | CertificateStorageClearAction =>
      λ p, Some (CertificateStorageClearActionProto.providerID p)
  end.

(** The key that an observed [deriveKey], [unwrapKey], [importKey] or
    [keyStorage.getItem] answered with, and the crypto object that was
    asked. *)
Definition made_key (o : Observed) : option (Crypto * CryptoKey.t) :=
  match o with
  | @Answer X c r =>
      match c in call X return JsError + X → option (Crypto * CryptoKey.t) with
      | subtle_deriveKey crypto _ _ _ _ _ =>
          λ r, match r with inr key => Some (crypto, key) | inl _ => None end
      | subtle_unwrapKey crypto _ _ _ _ _ _ _ =>
          λ r, match r with inr key => Some (crypto, key) | inl _ => None end
      | subtle_importKey crypto _ _ _ _ _ =>
          λ r, match r with inr key => Some (crypto, key) | inl _ => None end
      | keyStorage_getItem crypto _ _ _ =>
          λ r, match r with inr (defined key) => Some (crypto, key) | _ => None end
      | _ => λ _, None
      end r
  | Stored _ => None
  end.

(** The certificate that an observed [certStorage.getItem] or
    [certStorage.importCert] answered with, and the crypto object that was
    asked. *)
Definition made_certificate_by (o : Observed) : option (Crypto * CryptoCertificate.t) :=
  match o with
  | @Answer X c r =>
      match c in call X return JsError + X → option (Crypto * CryptoCertificate.t) with
      | certStorage_getItem crypto _ _ _ =>
          λ r, match r with inr (defined cert) => Some (crypto, cert) | _ => None end
      | certStorage_importCert crypto _ _ _ _ =>
          λ r, match r with inr cert => Some (crypto, cert) | inl _ => None end
      | _ => λ _, None
      end r
  | Stored _ => None
  end.

(** The hex text that an observed [Convert.ToHex] answered with. *)
Definition hex_answer (o : Observed) : option string :=
  match o with
  | @Answer X c r =>
      match c in call X return JsError + X → option string with
      | Convert_ToHex _ => λ r, match r with inr hex => Some hex | inl _ => None end
      | _ => λ _, None
      end r
  | Stored _ => None
  end.

(** The messages handled so far, one after the other, from the registry
    [ms] and the world [w]: the registry and the world they leave, and
    everything that was seen on the way. *)
Fixpoint served {W} (env : Env W) (ACTION : ActionClass → string)
    (history : list (Session.t * ActionProto.t))
    (ms : list ServiceCryptoItem.t) (w : W)
    : list ServiceCryptoItem.t * W * list Observed :=
  match history with
  | [] => (ms, w, [])
  | (session, action) :: history =>
      let out := exec env (onMessage ACTION session action) ms w in
      let rest := served env ACTION history (storage out) (world out) in
      (rest.1.1, rest.1.2, trace out ++ rest.2)
  end.

(** ** Handlers side by side

    The listener of ["message"] starts [onMessage] for every message and
    does not wait for the one before.  While a handler waits for the
    answer of a call, the other handlers go on: they push entries to the
    registry and act on the providers. *)

(** What the other handlers did while this one waited for the answer of
    one call: the entries they pushed, and what they did to the world. *)
Record Meanwhile (W : Type) : Type := mkMeanwhile {
  pushed : list ServiceCryptoItem.t;
  acted : W → W
}.
Arguments mkMeanwhile {W} pushed acted.
Arguments pushed {W} m.
Arguments acted {W} m.

(** [exec_among env others n p ms w]: [exec], with the other handlers
    running at every call; [others n] is what they do during the [n]-th
    call of this handler.  (The few calls that the source does not await,
    such as [toAlgorithm()], are treated alike: that only adds runs.) *)
Fixpoint exec_among {W R} (env : Env W) (others : nat → Meanwhile W) (n : nat)
    (p : Prog R) (ms : list ServiceCryptoItem.t) (w : W) : Outcome W R :=
  match p with
  | Ret r => mkOutcome (inr r) ms w []
  | Throw e => mkOutcome (inl e) ms w []
  | Call c k =>
      let ms' := ms ++ pushed (others n) in
      match env _ c w with
      | (inl e, w') => mkOutcome (inl e) ms' (acted (others n) w') [Answer c (inl e)]
      | (inr x, w') =>
          observe (Answer c (inr x))
                  (exec_among env others (S n) (k x) ms' (acted (others n) w'))
      end
  | ReadStorage k => exec_among env others n (k ms) ms w
  | Push item k => observe (Stored item) (exec_among env others n k (ms ++ [item]) w)
  end.

(** No other handler at work. *)
Definition alone {W} : nat → Meanwhile W := λ _, mkMeanwhile [] id.

(** What the other handlers pushed during the first [n] calls. *)
Definition pushed_during {W} (others : nat → Meanwhile W) (n : nat)
    : list ServiceCryptoItem.t :=
  concat ((λ i, pushed (others i)) <$> seq 0 n).

End Dispatch.

(** * The client's handshake: [socket.onopen] of [Client.connect] *)

Module Connect.
Import LocalServer.

(** Objects of 2key-ratchet and of the browser storage, by reference. *)
Inductive Identity : Type := IdentityObject (ref : nat).
Inductive RemoteIdentity : Type := RemoteIdentityObject (ref : nat).
Inductive Bundle : Type := BundleObject (ref : nat).
Inductive Cipher : Type := CipherObject (ref : nat).
Inductive Storage : Type := StorageObject (ref : nat).

Module ServerInfo.
Record t : Type := mk { name : string; version : string; preKey : string }.
End ServerInfo.

(** The calls of foreign code that the handler of [onopen] makes. *)
Inductive call : Type → Type :=
| BrowserStorage_create : call Storage
| loadIdentity (storage : Storage) : call (Maybe Identity)
| Identity_create (id : N) : call Identity
| saveIdentity (storage : Storage) (identity : Identity) : call unit
| Convert_FromBase64 (text : string) : call bytes
| PreKeyBundleProtocol_importProto (raw : bytes) : call Bundle
| AsymmetricRatchet_create (identity : Identity) (bundle : Bundle) : call Cipher
| remoteIdentity (cipher : Cipher) : call RemoteIdentity
| saveRemoteIdentity (storage : Storage) (key : string) (remote : RemoteIdentity) : call unit
| cipher_on (cipher : Cipher) (event : string) : call unit
| emit_listening (address : string) : call unit.
    (* the listeners of ["listening"], run by [emit]: a listener that throws
       makes [emit] throw *)

Inductive Observed : Type :=
| Answer {X : Type} (c : call X) (r : JsError + X).

(** The body of the [async] function of [onopen]: it returns, calls foreign
    code (a call that fails ends it), or assigns [this.cipher]. *)
Inductive Prog (R : Type) : Type :=
| Ret (r : R)
| Call {X : Type} (c : call X) (k : X → Prog R)
| SetCipher (cipher : Cipher) (k : Prog R).
Arguments Ret {R} r.
Arguments Call {R X} c k.
Arguments SetCipher {R} cipher k.

Fixpoint bind {A B} (f : A → Prog B) (p : Prog A) : Prog B :=
  match p with
  | Ret r => f r
  | Call c k => Call c (λ x, bind f (k x))
  | SetCipher cipher k => SetCipher cipher (bind f k)
  end.

Global Instance Prog_ret : MRet Prog := @Ret.
Global Instance Prog_bind : MBind Prog := @bind.

Definition await {X} (c : call X) : Prog X := Call c Ret.

Definition Env (W : Type) : Type := ∀ X, call X → W → (JsError + X) * W.

Record Outcome (W R : Type) : Type := mkOutcome {
  result : JsError + R;
  cipher : option Cipher;
  world : W;
  trace : list Observed
}.
Arguments mkOutcome {W R} result cipher world trace.
Arguments result {W R} o.
Arguments cipher {W R} o.
Arguments world {W R} o.
Arguments trace {W R} o.

Definition observe {W R} (o : Observed) (out : Outcome W R) : Outcome W R :=
  mkOutcome (result out) (cipher out) (world out) (o :: trace out).

(** [exec env p cipher w]: run [p] on a client whose [this.cipher] is
    [cipher]. *)
Fixpoint exec {W R} (env : Env W) (p : Prog R) (this_cipher : option Cipher) (w : W)
    : Outcome W R :=
  match p with
  | Ret r => mkOutcome (inr r) this_cipher w []
  | Call c k =>
      match env _ c w with
      | (inl e, w') => mkOutcome (inl e) this_cipher w' [Answer c (inl e)]
      | (inr x, w') => observe (Answer c (inr x)) (exec env (k x) this_cipher w')
      end
  | SetCipher c k => exec env k (Some c) w
  end.

(** The [async] function that [socket.onopen] runs; its last statement is
    [this.emit("listening", new ClientListeningEvent(this, address))]. *)
Definition handshake (info : ServerInfo.t) (address : string) : Prog unit :=
  storage ← await BrowserStorage_create;
  loaded ← await (loadIdentity storage);
  identity ←
    match loaded with
    | defined found => Ret found
    | _ =>
        identity ← await (Identity_create 1);
        await (saveIdentity storage identity);;
        Ret identity
    end;
  let remoteIdentityId := "0" in
  raw ← await (Convert_FromBase64 (ServerInfo.preKey info));
  bundle ← await (PreKeyBundleProtocol_importProto raw);
  cipher ← await (AsymmetricRatchet_create identity bundle);
  SetCipher cipher (
    remote ← await (remoteIdentity cipher);
    await (saveRemoteIdentity storage remoteIdentityId remote);;
    await (cipher_on cipher "update");;
    await (emit_listening address);;
    Ret ()).

(** The event that an observed [emit] gave to the listeners. *)
Definition announced (o : Observed) : option (string * Client.ClientEvent) :=
  match o with
  | @Answer X c _ =>
      match c with
      | emit_listening address => Some ("listening", Client.ClientListeningEvent address)
      | _ => None
      end
  end.

(** What [socket.onopen] leaves behind: [this.cipher], the world, the calls
    made and the events it emits. *)
Record Opened (W : Type) : Type := mkOpened {
  this_cipher : option Cipher;
  world_after : W;
  calls_made : list Observed;
  emitted : list (string * Client.ClientEvent)
}.
Arguments mkOpened {W} this_cipher world_after calls_made emitted.
Arguments this_cipher {W} o.
Arguments world_after {W} o.
Arguments calls_made {W} o.
Arguments emitted {W} o.

(** [socket.onopen]: the function above with
    [.catch((error) => this.emit("error", new ClientErrorEvent(this, error)))]
    on its promise.  The events emitted are the ["listening"] of the
    function, when it got that far, and the ["error"] of the [catch], when
    the function threw. *)
Definition socket_onopen {W} (env : Env W) (info : ServerInfo.t) (address : string)
    (w : W) : Opened W :=
  let out := exec env (handshake info address) None w in
  mkOpened (cipher out) (world out) (trace out)
    (omap announced (trace out)
     ++ match result out with
        | inr _ => []
        | inl error => [("error", Client.ClientErrorEvent error)]
        end).

(** What the observed calls were about. *)
Definition loaded (o : Observed) : option (Maybe Identity) :=
  match o with
  | @Answer X c r =>
      match c in call X return JsError + X → option (Maybe Identity) with
      | loadIdentity _ => λ r, match r with inr v => Some v | inl _ => None end
      | _ => λ _, None
      end r
  end.

Definition created (o : Observed) : option (N * Identity) :=
  match o with
  | @Answer X c r =>
      match c in call X return JsError + X → option (N * Identity) with
      | Identity_create id => λ r, match r with inr v => Some (id, v) | inl _ => None end
      | _ => λ _, None
      end r
  end.

(** The identities given to [saveIdentity] with success. *)
Definition saved (o : Observed) : option Identity :=
  match o with
  | @Answer X c r =>
      match c in call X return JsError + X → option Identity with
      | saveIdentity _ given =>
          λ r, match r with inr _ => Some given | inl _ => None end
      | _ => λ _, None
      end r
  end.

(** The identities given to [AsymmetricRatchet.create]. *)
Definition session_identity (o : Observed) : option Identity :=
  match o with
  | @Answer X c _ =>
      match c with
      | AsymmetricRatchet_create given _ => Some given
      | _ => None
      end
  end.


(** The error of an observed call that failed. *)
Definition failure (o : Observed) : option JsError :=
  match o with
  | @Answer X c r => match r with inl e => Some e | inr _ => None end
  end.

(** A storage and a server for the examples: the storage holds at most one
    identity; new identities are numbered. *)
Record World : Type := mkWorld { stored : option Identity; next : nat }.

Definition browser : Env World :=
  λ X c w,
    match c in call X return (JsError + X) * World with
    | BrowserStorage_create => (inr (StorageObject 0), w)
    | loadIdentity _ =>
        (inr (match stored w with Some i => defined i | None => null end), w)
    | Identity_create _ => (inr (IdentityObject (next w)), mkWorld (stored w) (S (next w)))
    | saveIdentity _ given => (inr (), mkWorld (Some given) (next w))
    | Convert_FromBase64 text => (inr (list_byte_of_string text), w)
    | PreKeyBundleProtocol_importProto raw =>
        (match raw with
         | [] => inl (Error "Cannot parse bundle")
         | _ => inr (BundleObject 0)
         end, w)
    | AsymmetricRatchet_create _ _ => (inr (CipherObject 0), w)
    | remoteIdentity _ => (inr (RemoteIdentityObject 0), w)
    | saveRemoteIdentity _ _ _ => (inr (), w)
    | cipher_on _ _ => (inr (), w)
    | emit_listening _ => (inr (), w)
    end.

End Connect.

(** * The key form: [KeyInfo.handleChangeAlgorithm] *)

Module KeyInfo.

Module Algorithm.
Record t : Type := mk { name : string; modulusLength : list N; usages : list string }.
End Algorithm.

Module AlgorithmValue.
Record t : Type := mk { name : string; value : string; index : nat }.
End AlgorithmValue.

(** [keyInfoData.map((key, _index) => { if (key.name === data) index =
    _index; })] over the rest of the array, from position [_index] on. *)
Fixpoint scan (data : string) (keys : list Algorithm.t) (_index index : nat) : nat :=
  match keys with
  | [] => index
  | key :: keys =>
      scan data keys (S _index)
           (if bool_decide (Algorithm.name key = data) then _index else index)
  end.

(** The new [state.algorithmValue]: [data] is a string (the native
    select) or the value object of the select field. *)
Definition handleChangeAlgorithm (keyInfoData : list Algorithm.t)
    (data : string + AlgorithmValue.t) : AlgorithmValue.t :=
  match data with
  | inr value => value
  | inl data => AlgorithmValue.mk data data (scan data keyInfoData 0 0)
  end.

(** [keyInfoData[algorithmValue.index]] in [render]. *)
Definition currentAlgorithmData (keyInfoData : list Algorithm.t)
    (algorithmValue : AlgorithmValue.t) : option Algorithm.t :=
  keyInfoData !! AlgorithmValue.index algorithmValue.

End KeyInfo.

(** * A provider with a token, for the examples *)

Module Probe.
Import LocalServer.

Inductive Request : Type :=
| LoginRequest (p : LoginActionProto.t)
| VerifyRequest (p : VerifyActionProto.t)
| CertificateStorageImportRequest (p : CertificateStorageImportActionProto.t).

Definition decode (req : Request) (k : ActionClass) : JsError + Params k :=
  match k return JsError + Params k with
  | LoginAction => match req with LoginRequest p => inr p | _ => Sample.malformed end
  | VerifyAction => match req with VerifyRequest p => inr p | _ => Sample.malformed end
  | CertificateStorageImportAction =>
      match req with CertificateStorageImportRequest p => inr p | _ => Sample.malformed end
  | _ => Sample.malformed
  end.

(** The token asks for a PIN, the prompt is answered with 1234, every
    signature but the empty one verifies, and an imported
    certificate holds a public key; every other call is answered as by
    [Sample.provider]. *)
Definition provider (req : Request) : Env Sample.World :=
  λ X c w,
    match c in call X return (JsError + X) * Sample.World → (JsError + X) * Sample.World with
    | importProto k _ => λ _, (decode req k, w)
    | has_login _ => λ _, (inr true, w)
    | notifier_notify => λ _, (inr ("replied", defined "1234"), w)
    | login _ _ => λ _, (inr (), w)
    | subtle_verify _ _ _ signature _ =>
        λ _, (inr (match signature with [] => false | _ => true end), w)
    | certStorage_importCert _ type _ alg keyUsages =>
        λ _, (inr (CryptoCertificate.mk type (CryptoKey.mk "public" alg true keyUsages 20) 21), w)
    | _ => λ other, other
    end (Sample.provider (Sample.KeyStorageClearRequest (KeyStorageClearActionProto.mk "p1"))
                         X c w).


End Probe.

(** * Facts about the client *)

Section ClientFacts.
Import Client.
Variable importProto : bytes → JsError + ResultProto.t.

Lemma count_snoc p cs i :
  count p (cs ++ [i]) = count p cs + (if decide (promise_of (callee i) = p) then 1 else 0).
Proof.
  unfold count. rewrite filter_app, length_app.
  f_equal. rewrite filter_cons, filter_nil. by case_decide.
Qed.

Lemma own_inj p q : own p = own q → p = q.
Proof. by intros [= ->]. Qed.

(** ** The invariant holds of every reachable client *)

Lemma inv_connected addr : inv (connected addr).
Proof. split; simpl; intros; simplify_map_eq; auto. Qed.

Lemma inv_send event data c : inv c → inv (send event data c).
Proof.
  intros [Hs Hi Hc Ho Hf]. unfold send.
  destruct (checkSocketState c) as [e|]; split; simpl.
  - intros k item Hk. destruct (Hs k item Hk) as (p & -> & Hp & Hch & Hn).
    exists p. rewrite count_snoc. simpl. case_decide; repeat split; auto; lia.
  - exact Hi.
  - intros p r Hp. destruct (Hc p r Hp) as [Hlt Hn].
    rewrite count_snoc. simpl. case_decide; split; lia.
  - intros p. rewrite count_snoc. simpl. case_decide.
    + subst p. rewrite (Hf (promises c)); lia.
    + specialize (Ho p). lia.
  - intros p Hp. rewrite count_snoc. simpl. case_decide; [lia|]. rewrite Hf; lia.
  - intros k item Hk. destruct (Hs k item Hk) as (p & -> & Hp & Hch & Hn).
    exists p. rewrite lookup_insert_ne by lia. repeat split; auto; lia.
  - exact Hi.
  - intros p r. rewrite lookup_insert. case_decide.
    + subst p. intros _. split; [lia|]. apply Hf. lia.
    + intros Hp. destruct (Hc p r Hp). split; [lia|done].
  - exact Ho.
  - intros p Hp. apply Hf. lia.
Qed.

Lemma inv_send_then p raw c : inv c → inv (send_then p raw c).
Proof.
  intros [Hs Hi Hc Ho Hf]. unfold send_then.
  destruct (chains c !! p) as [r|] eqn:Hp; [|by split].
  destruct raw as [e|raw]; split; simpl; auto.
  - intros k item Hk. destruct (Hs k item Hk) as (q & -> & Hq & Hch & Hn).
    exists q. repeat split; auto. apply lookup_delete_None. auto.
  - intros q r'. rewrite lookup_delete_Some. intros [_ Hq]. eauto.
  - intros k item. rewrite lookup_insert. case_decide.
    + intros [= <-]. exists p. destruct (Hc p r Hp).
      repeat split; auto. apply lookup_delete_eq.
    + intros Hk. destruct (Hs k item Hk) as (q & -> & Hq & Hch & Hn).
      exists q. repeat split; auto. apply lookup_delete_None. auto.
  - intros k1 k2 q. rewrite !lookup_insert.
    repeat case_decide; try congruence.
    + intros [= <-] Hk2. destruct (Hs _ _ Hk2) as (q & Hq%own_inj & _ & Hch & _).
      subst q. congruence.
    + intros Hk1 [= <-]. destruct (Hs _ _ Hk1) as (q & Hq%own_inj & _ & Hch & _).
      subst q. congruence.
    + apply Hi.
  - intros q r'. rewrite lookup_delete_Some. intros [_ Hq]. eauto.
Qed.

Lemma inv_emit name e c : inv c → inv (emit name e c).
Proof. by intros []. Qed.

Lemma inv_onMessage message c : inv c → inv (onMessage importProto message c).1.
Proof.
  intros [Hs Hi Hc Ho Hf]. unfold onMessage.
  destruct (importProto message) as [e|proto]; [split; auto|].
  set (k := ResultProto.actionId proto).
  assert (Hdel : ∀ k' item, delete k (stack c) !! k' = Some item →
                            k' ≠ k ∧ stack c !! k' = Some item).
  { intros k' item. rewrite lookup_delete_Some. intros [? ?]. by split. }
  assert (Hnone : inv (mk (delete k (stack c)) (messageCounter c) (readyState c)
                          (address c) (heap c) (promises c) (chains c) (calls c)
                          (sent c) (emitted c))).
  { split; simpl; auto.
    - intros k' item [_ Hk]%Hdel. eauto.
    - intros k1 k2 q [_ H1]%Hdel [_ H2]%Hdel. eauto. }
  assert (Hsome : ∀ item i, stack c !! k = Some item →
            promise_of (callee i) = promise_of (resolve item) →
            inv (mk (delete k (stack c)) (messageCounter c) (readyState c)
                    (address c) (heap c) (promises c) (chains c) (calls c ++ [i])
                    (sent c) (emitted c))).
  { intros item i Hk Hcallee.
    destruct (Hs k item Hk) as (p & -> & Hp & Hch & Hn). simpl in Hcallee.
    split; simpl.
    - intros k' item [Hne Hk']%Hdel.
      destruct (Hs k' item Hk') as (q & -> & Hq & Hch' & Hn').
      exists q. rewrite count_snoc, Hcallee. case_decide; [|repeat split; auto; lia].
      subst q. destruct Hne. eauto.
    - intros k1 k2 q [_ H1]%Hdel [_ H2]%Hdel. eauto.
    - intros q r Hq. destruct (Hc q r Hq) as [Hlt Hn'].
      rewrite count_snoc, Hcallee. case_decide; [congruence|]. split; lia.
    - intros q. rewrite count_snoc, Hcallee. case_decide.
      + subst q. lia.
      + specialize (Ho q). lia.
    - intros q Hq. rewrite count_snoc, Hcallee. case_decide; [lia|].
      rewrite Hf; lia. }
  destruct (truthy_string (ResultProto.error proto)), (stack c !! k) as [item|] eqn:Hk;
    simpl; auto.
  - apply (Hsome item); auto.
    destruct (Hs k item Hk) as (p & -> & _). done.
  - apply (Hsome item); auto.
Qed.

Lemma inv_step c s : inv c → inv (step importProto c s).
Proof.
  destruct s as [event data|p raw|[err|message]|]; simpl.
  - apply inv_send.
  - apply inv_send_then.
  - apply inv_emit.
  - apply inv_onMessage.
  - by intros [].
Qed.

Lemma inv_run steps c : inv c → inv (run importProto steps c).
Proof.
  revert c. induction steps as [|s steps IH]; intros c Hc; [done|].
  simpl. apply IH, inv_step, Hc.
Qed.

(** ** A promise that has lost its entry is never settled *)

Lemma lost_step p c s :
  inv c → lost p c →
  lost p (step importProto c s) ∧ settlements p (step importProto c s) = settlements p c.
Proof.
  intros Hinv (Hp & Hch & Hst). unfold settlements, lost.
  destruct s as [event data|q raw|[err|message]|]; simpl.
  - unfold send. destruct (checkSocketState c); simpl.
    + rewrite count_snoc. simpl. rewrite decide_False by lia.
      split; [split; [lia|done]|lia].
    + split; [|done]. split; [lia|]. split; [|done].
      rewrite lookup_insert_ne by lia. done.
  - unfold send_then. destruct (chains c !! q) as [r|] eqn:Hq; [|done].
    assert (q ≠ p) by congruence.
    destruct raw as [e|raw]; simpl; (split; [|done]);
      (split; [done|]); (split; [by rewrite lookup_delete_ne|]); [done|].
    intros k. rewrite lookup_insert. case_decide; [|done].
    by intros [= ->].
  - done.
  - unfold onMessage. destruct (importProto message) as [e|proto]; [done|].
    set (k := ResultProto.actionId proto).
    assert (Hdel : ∀ k', delete k (stack c) !! k' ≠ Some (own p)).
    { intros k'. rewrite lookup_delete_Some. intros [_ ?]. by destruct (Hst k'). }
    destruct (truthy_string (ResultProto.error proto)),
      (stack c !! k) as [item|] eqn:Hk; simpl; try done;
      destruct (inv_stack _ Hinv _ _ Hk) as (q & -> & _); simpl;
      rewrite count_snoc; simpl;
      (rewrite decide_False; [split; [done|lia]|]);
      intros ->; by destruct (Hst k).
  - done.
Qed.

Lemma lost_forever p c steps :
  inv c → lost p c → settlements p (run importProto steps c) = settlements p c.
Proof.
  revert c. induction steps as [|s steps IH]; intros c Hinv Hlost; [done|].
  simpl. destruct (lost_step p c s Hinv Hlost) as [Hlost' <-].
  apply IH; [by apply inv_step|done].
Qed.

(** ** Without a frame from the server nothing that exists is settled *)

Lemma frameless_step p c s :
  is_frame s = false → p < promises c →
  p < promises (step importProto c s)
  ∧ settlements p (step importProto c s) = settlements p c.
Proof.
  intros Hs Hp. unfold settlements. destruct s as [event data|q raw| |]; simpl; try done.
  - unfold send. destruct (checkSocketState c); simpl; [|split; [lia|done]].
    rewrite count_snoc. simpl. rewrite decide_False by lia. split; lia.
  - unfold send_then. destruct (chains c !! q); [|done]. by destruct raw.
Qed.

Lemma frameless_run p c steps :
  forallb (λ s, negb (is_frame s)) steps = true → p < promises c →
  settlements p (run importProto steps c) = settlements p c.
Proof.
  revert c. induction steps as [|s steps IH]; intros c Hs Hp; [done|].
  simpl in *. apply andb_prop in Hs as [Hs%negb_true_iff Hsteps].
  destruct (frameless_step p c s Hs Hp) as [Hp' <-]. by apply IH.
Qed.

(** ** A continuation that waits keeps its object *)

Lemma waiting_step p r id c s :
  touches p r s = false → waiting p r id c → waiting p r id (step importProto c s).
Proof.
  intros Hs (Hp & Hch & obj & Hobj & Hid). unfold waiting.
  destruct s as [event data|q raw|[err|message]|]; simpl.
  - unfold send. destruct (checkSocketState c); simpl.
    { split; [lia|]. eauto. }
    assert (Hne : data_object data c ≠ r).
    { destruct data as [r'|]; simpl in *.
      - by apply bool_decide_eq_false in Hs.
      - intros Heq. apply (is_fresh (dom (heap c))). rewrite Heq.
        apply elem_of_dom. eauto. }
    fold (data_object data c).
    split; [lia|]. split; [by rewrite lookup_insert_ne by lia|].
    exists obj. by rewrite lookup_insert_ne.
  - simpl in Hs. apply bool_decide_eq_false in Hs.
    unfold send_then. destruct (chains c !! q); [|by eauto 10].
    destruct raw; simpl; (split; [done|]);
      (split; [by rewrite lookup_delete_ne|]); eauto.
  - eauto 10.
  - unfold onMessage. destruct (importProto message); [by eauto 10|].
    destruct (truthy_string _), (stack c !! _); simpl; eauto 10.
  - eauto 10.
Qed.

Lemma waiting_run p r id c steps :
  forallb (λ s, negb (touches p r s)) steps = true →
  waiting p r id c → waiting p r id (run importProto steps c).
Proof.
  revert c. induction steps as [|s steps IH]; intros c Hs Hw; [done|].
  simpl in *. apply andb_prop in Hs as [Hs%negb_true_iff Hsteps].
  apply IH; [done|]. by apply waiting_step.
Qed.

Lemma run_app steps1 steps2 c :
  run importProto (steps1 ++ steps2) c
  = run importProto steps2 (run importProto steps1 c).
Proof. apply foldl_app. Qed.

(** C1, as amended.  Whatever happens to a connected client, the functions
    of a promise returned by [send] are called at most once altogether.  A
    send on an open socket whose request is serialized and encrypted stores
    the functions of its promise under the [actionId] it assigned, whatever
    happens in between, provided its object is not passed to [send] again
    before; it has called neither function by then.  When a frame arrives
    whose [actionId] has an entry in the stack, the promise of that entry,
    not settled so far, is settled exactly once by that frame (rejected
    with [new Error(error)] when the frame carries an error, resolved with
    its data otherwise) and the entry is removed.  The close of the socket
    calls neither function and leaves the stack and the waiting
    continuations as they are. *)
Theorem send_settles_at_most_once steps addr :
  let c := run importProto steps (connected addr) in
  (∀ p, settlements p c ≤ 1)
  ∧ (∀ event data mid raw,
        readyState c = open →
        let p := promises c in
        forallb (λ s, negb (touches p (data_object data c) s)) mid = true →
        let c' := run importProto
                      (Send event data :: mid ++ [SendThen p (inr raw)]) c in
        stack c' !! toString (messageCounter c) = Some (own p)
        ∧ settlements p c' = 0)
  ∧ (∀ message proto item,
        importProto message = inr proto →
        stack c !! ResultProto.actionId proto = Some item →
        let c' := step importProto c (Frame (inr message)) in
        ∃ p, item = own p
             ∧ settlements p c = 0 ∧ settlements p c' = 1
             ∧ stack c' !! ResultProto.actionId proto = None
             ∧ calls c' = calls c ++
                 [if truthy_string (ResultProto.error proto)
                  then Rejected (RejectOf p) (Error (default "" (ResultProto.error proto)))
                  else Resolved (ResolveOf p) (ResultProto.data proto)])
  ∧ (let c' := step importProto c Close in
     calls c' = calls c ∧ stack c' = stack c ∧ chains c' = chains c).
Proof.
  intros c. assert (Hinv : inv c) by apply inv_run, inv_connected.
  split; [|split; [|split]].
  - apply Hinv.
  - intros event data mid raw Hopen p Hmid c'. subst c'.
    change (Send event data :: mid ++ [SendThen p (inr raw)])
      with ([Send event data] ++ mid ++ [SendThen p (inr raw)]).
    rewrite !run_app.
    set (c1 := run importProto [Send event data] c).
    assert (Hw1 : waiting p (data_object data c) (toString (messageCounter c)) c1).
    { subst c1. simpl. unfold send, checkSocketState, state. rewrite Hopen. simpl.
      fold (data_object data c). unfold waiting. simpl.
      split; [subst p; lia|].
      split; [apply lookup_insert_eq|]. eexists. by rewrite lookup_insert_eq. }
    assert (Hinv2 : inv (run importProto mid c1)).
    { apply inv_run. subst c1. simpl. by apply inv_send. }
    apply (waiting_run _ _ _ _ mid Hmid) in Hw1 as (_ & Hch & obj & Hobj & Hid).
    destruct (inv_chains _ Hinv2 _ _ Hch) as [_ Hn].
    simpl. unfold send_then. rewrite Hch. simpl. rewrite Hobj. simpl.
    rewrite Hid, lookup_insert_eq. done.
  - intros message proto item Hm Hk c'.
    destruct (inv_stack _ Hinv _ _ Hk) as (p & -> & _ & _ & Hn).
    exists p. subst c'. simpl. unfold onMessage. rewrite Hm, Hk.
    unfold settlements.
    destruct (truthy_string (ResultProto.error proto)); simpl;
      rewrite count_snoc; simpl; rewrite decide_True by done;
      rewrite Hn, lookup_delete_eq; done.
  - done.
Qed.

(** C8, as amended.  [onMessage] parses a result envelope and removes the
    entry of the stack under its [actionId].  When there is such an entry,
    it is rejected with [new Error(error)] if the envelope carries an error
    and resolved with the data otherwise, and no event is emitted.  When
    there is none, no function of any entry is called, the stack is as
    before and no event reaches a listener. *)
Theorem onMessage_settles_pending_entry message proto c :
  importProto message = inr proto →
  let k := ResultProto.actionId proto in
  let r := onMessage importProto message c in
  match stack c !! k with
  | Some item =>
      r.2 = Returned
      ∧ stack r.1 = delete k (stack c)
      ∧ calls r.1 = calls c ++
          [if truthy_string (ResultProto.error proto)
           then Rejected (reject item) (Error (default "" (ResultProto.error proto)))
           else Resolved (resolve item) (ResultProto.data proto)]
      ∧ emitted r.1 = emitted c
  | None =>
      stack r.1 = stack c
      ∧ calls r.1 = calls c
      ∧ emitted r.1 = emitted c
  end.
Proof.
  intros Hm k r. subst r. unfold onMessage. rewrite Hm. fold k.
  destruct (stack c !! k) as [item|] eqn:Hk;
    destruct (truthy_string (ResultProto.error proto)); simpl;
    rewrite ?(delete_id _ _ Hk); eauto 10.
Qed.

End ClientFacts.

Import Client.

(** C1, a send that is never settled.  The client sends once, and the
    counter has moved on.  When encryption fails, promise 0 is never
    settled, whatever happens afterwards.  When the socket closes while the
    call is pending, the entry stays in the stack, and promise 0 is not
    settled unless a frame still arrives. *)
Lemma pending_send_left_unsettled :
  let start := connected "127.0.0.1:31337" in
  let failed :=
    run Sample.importResult
        [Send "crypto/subtle/sign" None; SendThen 0 (inl (Error "Cannot encrypt"))] start in
  let closed_pending :=
    run Sample.importResult
        [Send "crypto/subtle/sign" None; SendThen 0 (inr []); Close] start in
  (messageCounter failed = 1%N
   ∧ ∀ steps, settlements 0 (run Sample.importResult steps failed) = 0)
  ∧ (stack closed_pending !! "0" = Some (own 0)
     ∧ readyState closed_pending = closed
     ∧ ∀ steps, forallb (λ s, negb (is_frame s)) steps = true →
                settlements 0 (run Sample.importResult steps closed_pending) = 0).
Proof.
  intros start failed closed_pending. split; [split|split; [|split]].
  - by vm_compute.
  - intros steps. rewrite lost_forever; [by vm_compute| |].
    + apply inv_run, inv_connected.
    + split; [vm_compute; lia|]. split; [by vm_compute|].
      intros k. by vm_compute.
  - by vm_compute.
  - by vm_compute.
  - intros steps Hsteps. rewrite frameless_run; [by vm_compute|done|vm_compute; lia].
Qed.

(** The amended C1 on a client that sent one request: the failure reply
    settles promise 0, once. *)
Lemma send_settles_at_most_once_witness :
  let c := run Sample.importResult
             [Send "crypto/subtle/sign" None; SendThen 0 (inr [])]
             (connected "127.0.0.1:31337") in
  let failure := [Byte.x01; Byte.x30] in
  settlements 0 c = 0
  ∧ settlements 0 (step Sample.importResult c (Frame (inr failure))) = 1.
Proof.
  intros c failure.
  destruct (send_settles_at_most_once Sample.importResult
              [Send "crypto/subtle/sign" None; SendThen 0 (inr [])]
              "127.0.0.1:31337") as (_ & _ & Hreply & _).
  assert (Hk : stack c !! "0" = Some (own 0)) by (by vm_compute).
  destruct (Hreply failure (ResultProto.mk "0" "reply" None (Some "failed")) (own 0)
              eq_refl Hk) as (p & <-%own_inj & H0 & H1 & _).
  by split.
Defined.

(** C8, an unsolicited frame: nothing is pending, the frame has
    [actionId] 7; [onMessage] throws and no listener hears of it. *)
Lemma unsolicited_frame_reaches_no_listener :
  let c := connected "127.0.0.1:31337" in
  let event := [Byte.x00; Byte.x37] in
  let r := onMessage Sample.importResult event c in
  r.2 = Threw (TypeError "Cannot read property 'resolve' of undefined")
  ∧ emitted r.1 = []
  ∧ calls r.1 = []
  ∧ emitted (socket_onmessage Sample.importResult (inr event) c) = [].
Proof. by vm_compute. Qed.

(** The amended C8 on a client that sent one request: the failure reply
    rejects the pending call with the error of the envelope. *)
Lemma onMessage_settles_pending_entry_witness :
  let c := run Sample.importResult
             [Send "crypto/subtle/sign" None; SendThen 0 (inr [])]
             (connected "127.0.0.1:31337") in
  calls (onMessage Sample.importResult [Byte.x01; Byte.x30] c).1
  = [Rejected (RejectOf 0) (Error "failed")].
Proof.
  intros c.
  pose proof (onMessage_settles_pending_entry Sample.importResult [Byte.x01; Byte.x30]
                (ResultProto.mk "0" "reply" None (Some "failed")) c eq_refl) as H.
  vm_compute in H. destruct H as (_ & _ & H & _). vm_compute. exact H.
Defined.

(** * Facts about the server *)

(** ** The format test *)

Lemma lower_j a : lower a = "j"%char ↔ a = "j"%char ∨ a = "J"%char.
Proof.
  destruct a as [[] [] [] [] [] [] [] []]; vm_compute;
    (split; [intros [=]; auto | intros [[=]|[=]]; auto]).
Qed.

Lemma lower_w a : lower a = "w"%char ↔ a = "w"%char ∨ a = "W"%char.
Proof.
  destruct a as [[] [] [] [] [] [] [] []]; vm_compute;
    (split; [intros [=]; auto | intros [[=]|[=]]; auto]).
Qed.

Lemma lower_k a : lower a = "k"%char ↔ a = "k"%char ∨ a = "K"%char.
Proof.
  destruct a as [[] [] [] [] [] [] [] []]; vm_compute;
    (split; [intros [=]; auto | intros [[=]|[=]]; auto]).
Qed.

Lemma toLowerCase_empty s : toLowerCase s = "" → s = "".
Proof.
  destruct s as [|a [|b [|c s]]]; simpl; try done.
  by destruct (is_kelvin a b c).
Qed.

Lemma is_jwk_spelling format :
  LocalServer.is_jwk format = true ↔
  ∃ j w k, format = String j (String w k)
           ∧ (j = "j" ∨ j = "J")%char ∧ (w = "w" ∨ w = "W")%char
           ∧ (k = "k" ∨ k = "K" ∨ k = kelvin).
Proof.
  unfold LocalServer.is_jwk. rewrite bool_decide_eq_true. split.
  - destruct format as [|j [|w [|k rest]]]; simpl; try discriminate.
    destruct (is_kelvin j w k); [discriminate|].
    intros [= Hj%lower_j Hw].
    destruct rest as [|d [|e rest]]; simpl in Hw.
    + injection Hw as Hw%lower_w Hk%lower_k.
      exists j, w, (String k EmptyString). split; [done|]. split; [done|]. split; [done|].
      destruct Hk as [-> | ->]; auto.
    + destruct (is_kelvin w k d); discriminate.
    + destruct (is_kelvin w k d); [discriminate|].
      injection Hw as Hw%lower_w Hk.
      destruct (is_kelvin k d e) eqn:Hkelvin.
      * injection Hk as ->%toLowerCase_empty.
        apply bool_decide_eq_true in Hkelvin.
        exists j, w, kelvin. split; [by rewrite <- Hkelvin|]. auto.
      * injection Hk as _ Hk.
        destruct rest as [|c0 rest0]; simpl in Hk; [discriminate|].
        destruct (is_kelvin d e c0); discriminate.
  - intros (j & w & k & -> & [-> | ->] & [-> | ->] & [-> | [-> | ->]]); reflexivity.
Qed.

Section ServerFacts.
Import LocalServer.
Context {W : Type} (env : Env W).

Lemma exec_bind {A B} (f : A → Prog B) (p : Prog A) ms w :
  exec env (bind f p) ms w = and_then (exec env p ms w) (λ a, exec env (f a)).
Proof.
  revert ms w. induction p as [r|e|X c k IH|k IH|item k IH]; intros ms w; simpl.
  - unfold and_then. simpl. by destruct (exec env (f r) ms w).
  - done.
  - destruct (env X c w) as [[e|x] w']; [done|].
    rewrite IH. unfold and_then, observe. simpl.
    by destruct (result (exec env (k x) ms w')).
  - apply IH.
  - rewrite IH. unfold and_then, observe. simpl.
    by destruct (result (exec env k (ms ++ [item]) w)).
Qed.

(** Case analysis on the answer of the next call, and on a lookup in the
    registry. *)
Ltac answer :=
  match goal with
  | |- context [env ?X ?c ?w] =>
      let e := fresh "e" in
      let x := fresh "x" in
      let w' := fresh "w" in
      destruct (env X c w) as [[e|x] w'] eqn:?; simpl
  end.
Ltac lookup :=
  match goal with
  | |- context [getItemFromStorage ?ms ?q] =>
      let e := fresh "e" in
      let found := fresh "found" in
      destruct (getItemFromStorage ms q) as [e|[found|]] eqn:?; simpl
  end.
(** C7.  When [GetIdentity] returns an id for a key of type ["public"],
    it has exported the key as JWK from the key's provider, imported that
    JWK into the software provider, exported the imported key as SPKI,
    taken the SHA-256 digest of it, and the id is the hex encoding of that
    digest.  For a key of any other type it has drawn 32 random bytes and
    the id is their hex encoding.  It fails only when one of these calls
    fails, and it leaves the registry alone. *)
Theorem GetIdentity_thumbprint key provider ms w :
  let out := exec env (GetIdentity key provider) ms w in
  (∀ id, result out = inr id →
     (CryptoKey.type key = "public" →
      ∃ jwk osslKey raw hash,
        trace out =
          [ Answer (subtle_exportKey provider "jwk" (Key key)) (inr jwk);
            Answer (subtle_importKey ossl "jwk" jwk (CryptoKey.algorithm key)
                                     true (CryptoKey.usages key)) (inr osslKey);
            Answer (subtle_exportKey ossl "spki" (Key osslKey)) (inr raw);
            Answer (subtle_digest ossl (ByName "SHA-256") raw) (inr hash);
            Answer (Convert_ToHex hash) (inr id) ])
     ∧ (CryptoKey.type key ≠ "public" →
        ∃ rndBytes,
          trace out =
            [ Answer (getRandomValues 32) (inr rndBytes);
              Answer (Convert_ToHex rndBytes) (inr id) ]))
  ∧ (∀ e, result out = inl e →
       ∃ X (c : call X), last (trace out) = Some (Answer c (inl e)))
  ∧ storage out = ms.
Proof.
  unfold GetIdentity. simpl. case_bool_decide as Hty; simpl; repeat answer;
    (split; [|split; [|done]]);
    try (intros ? [= <-]; split; intros ?; by eauto 10);
    try (intros ? [= <-]; by eauto);
    by intros ? [=].
Qed.

Lemma switch_None ACTION tag :
  (∀ k, ACTION k ≠ tag) → switch ACTION tag = None.
Proof.
  intros Hno. unfold switch.
  destruct (List.find _ cases) as [k|] eqn:Hk; [|done].
  apply find_some in Hk as [_ Hk%bool_decide_eq_true]. by destruct (Hno k).
Qed.

(** C5.  For an action whose tag is the tag of no action class,
    [onMessage] throws [Unknown action '<tag>'] without calling anything;
    the reply is a result envelope with that message as its error and no
    data, and the session, the registry and the world are as before. *)
Theorem unknown_action_is_rejected_in_band ACTION session action ms w :
  (∀ k, ACTION k ≠ ActionProto.action action) →
  let tag := ActionProto.action action in
  let thrown := Error ("Unknown action '" +:+ tag +:+ "'") in
  let d := on_message ACTION env session action ms w in
  result (exec env (onMessage ACTION session action) ms w) = inl thrown
  ∧ reply d = ResultProto.mk (ActionProto.actionId action) tag None
                             (Some ("Unknown action '" +:+ tag +:+ "'"))
  ∧ session_after d = session
  ∧ storage_after d = ms
  ∧ world_after d = w
  ∧ calls_made d = [].
Proof.
  intros Hno%switch_None. unfold on_message, onMessage. rewrite Hno. done.
Qed.

Local Arguments GetIdentity : simpl never.

Lemma GetIdentity_quiet key provider ms w :
  let out := exec env (GetIdentity key provider) ms w in
  storage out = ms ∧ Forall (λ o, generated o = None) (trace out).
Proof.
  unfold GetIdentity. simpl.
  case_bool_decide; simpl; repeat answer; split; try done; by repeat constructor.
Qed.


(** One step of a handler: the answer of the next call, the outcome of
    the next lookup, or the next test. *)
Ltac forward :=
  first
    [ answer
    | lookup
    | match goal with
      | |- context [if ?b then _ else _] => destruct b eqn:?; simpl
      | |- context [match ?x with null => _ | undefined => _ | defined _ => _ end] =>
          destruct x eqn:?; simpl
      | |- context [match ?x with inl _ => _ | inr _ => _ end] =>
          destruct x eqn:?; simpl
      | |- context [match ?x with SingleKey _ => _ | KeyPair _ _ => _ end] =>
          destruct x eqn:?; simpl
      end ].





Lemma exportKey_data ACTION session action ms w reply :
  switch ACTION (ActionProto.action action) = Some ExportKeyAction →
  let out := exec env (onMessage ACTION session action) ms w in
  result out = inr reply →
  ∃ params c key exportedData rest,
    let format := ExportKeyActionProto.format params in
    trace out =
      [ Answer (importProto ExportKeyAction action) (inr params);
        Answer (provider_getCrypto (ExportKeyActionProto.providerID params)) (inr c);
        Answer (subtle_exportKey c format key) (inr exportedData) ] ++ rest
    ∧ if is_jwk format then
        ∃ json utf8,
          rest = [ Answer (JSON_stringify exportedData) (inr json);
                   Answer (Convert_FromUtf8String json) (inr utf8) ]
          ∧ ResultProto.data reply = Some (ArrayBuffer utf8)
      else rest = [] ∧ ResultProto.data reply = Some exportedData.
Proof.
  intros Hsw out. subst out. unfold onMessage. rewrite Hsw. simpl.
  answer; [by intros [=]|].
  answer; [by intros [=]|].
  unfold storageItem. simpl. lookup; try by intros [=].
  answer; [by intros [=]|].
  destruct (is_jwk (ExportKeyActionProto.format x)) eqn:Hfmt; simpl.
  - answer; [by intros [=]|].
    answer; [by intros [=]|].
    intros [= <-]. do 4 eexists. eexists. split; [done|]. rewrite Hfmt. eauto.
  - intros [= <-]. do 4 eexists. exists []. split; [done|]. by rewrite Hfmt.
Qed.

Lemma importKey_data ACTION session action ms w reply :
  switch ACTION (ActionProto.action action) = Some ImportKeyAction →
  let out := exec env (onMessage ACTION session action) ms w in
  result out = inr reply →
  ∃ params c decoding keyData alg key rest,
    let format := ImportKeyActionProto.format params in
    trace out =
      [ Answer (importProto ImportKeyAction action) (inr params);
        Answer (provider_getCrypto (ImportKeyActionProto.providerID params)) (inr c) ]
      ++ decoding ++
      [ Answer (toAlgorithm (ImportKeyActionProto.algorithm params)) (inr alg);
        Answer (subtle_importKey c format keyData alg
                  (ImportKeyActionProto.extractable params)
                  (ImportKeyActionProto.keyUsages params)) (inr key) ]
      ++ rest
    ∧ if is_jwk format then
        ∃ json jwk,
          decoding = [ Answer (Convert_ToUtf8String (ImportKeyActionProto.keyData params))
                              (inr json);
                       Answer (JSON_parse json) (inr jwk) ]
          ∧ keyData = JsonWebKey jwk
      else decoding = [] ∧ keyData = ArrayBuffer (ImportKeyActionProto.keyData params).
Proof.
  intros Hsw out. subst out. unfold onMessage. rewrite Hsw. simpl.
  answer; [by intros [=]|].
  answer; [by intros [=]|].
  destruct (is_jwk (ImportKeyActionProto.format x)) eqn:Hfmt; simpl.
  - answer; [by intros [=]|].
    answer; [by intros [=]|].
    answer; [by intros [=]|].
    answer; [by intros [=]|].
    intros _. exists x, x0. eexists [_; _]. do 4 eexists.
    split; [done|]. rewrite Hfmt. eauto.
  - answer; [by intros [=]|].
    answer; [by intros [=]|].
    intros _. exists x, x0, []. do 4 eexists.
    split; [done|]. by rewrite Hfmt.
Qed.

(** A handler stopped by a failed call: the call is the last one made. *)
Lemma failure_cons (o : Observed) t e :
  (∃ X (c : call X) before, t = before ++ [Answer c (inl e)]) →
  ∃ X (c : call X) before, o :: t = before ++ [Answer c (inl e)].
Proof. intros (X & c & before & ->). by exists X, c, (o :: before). Qed.

Ltac failed_at :=
  first [ by eexists _, _, [] | by eexists _, _, _ | apply failure_cons; failed_at ].
Ltac failed_call := intros [= <-]; failed_at.

Lemma GetIdentity_failure key provider ms w e :
  let out := exec env (GetIdentity key provider) ms w in
  result out = inl e →
  ∃ X (c : call X) before, trace out = before ++ [Answer c (inl e)].
Proof.
  unfold GetIdentity. simpl.
  case_bool_decide; simpl; repeat answer; first [failed_call | by intros [=]].
Qed.

Lemma importKey_failure ACTION session action ms w e :
  switch ACTION (ActionProto.action action) = Some ImportKeyAction →
  let out := exec env (onMessage ACTION session action) ms w in
  result out = inl e →
  ∃ X (c : call X) before, trace out = before ++ [Answer c (inl e)].
Proof.
  intros Hsw out. subst out. unfold onMessage. rewrite Hsw. simpl.
  answer; [failed_call|].
  answer; [failed_call|].
  destruct (is_jwk (ImportKeyActionProto.format x)); simpl;
    repeat (answer; [failed_call|]);
    unfold mbind, Prog_bind; rewrite !exec_bind;
    match goal with
    | |- context [exec env (GetIdentity ?key ?c) ?ms ?w] =>
        pose proof (GetIdentity_failure key c ms w e) as Hid; simpl in Hid;
        destruct (exec env (GetIdentity key c) ms w) as [[e'|thumbprint] ms' wi t];
        unfold and_then; simpl in *
    end.
  - intros [= ->]. destruct (Hid eq_refl) as (X & c & before & ->).
    failed_at.
  - answer; [|by intros [=]].
    intros [= <-]. repeat apply failure_cons.
    eexists _, _, (t ++ [_]). by rewrite <- app_assoc.
  - intros [= ->]. destruct (Hid eq_refl) as (X & c & before & ->).
    failed_at.
  - answer; [|by intros [=]].
    intros [= <-]. repeat apply failure_cons.
    eexists _, _, (t ++ [_]). by rewrite <- app_assoc.
Qed.

Lemma exportKey_failure ACTION session action ms w e :
  switch ACTION (ActionProto.action action) = Some ExportKeyAction →
  let out := exec env (onMessage ACTION session action) ms w in
  result out = inl e →
  (∃ X (c : call X) before, trace out = before ++ [Answer c (inl e)])
  ∨ (∃ params c,
       trace out =
         [ Answer (importProto ExportKeyAction action) (inr params);
           Answer (provider_getCrypto (ExportKeyActionProto.providerID params)) (inr c) ]
       ∧ getItemFromStorage ms (ExportKeyActionProto.key params) = inr None
       ∧ e = TypeError "Cannot read property 'item' of undefined").
Proof.
  intros Hsw out. subst out. unfold onMessage. rewrite Hsw. simpl.
  answer; [left; revert H; failed_call|].
  answer; [left; revert H; failed_call|].
  unfold storageItem. simpl. lookup.
  - unfold getItemFromStorage in Heqs.
    by destruct (bool_decide (is_Some (some_found _ ms None))).
  - answer; [left; revert H; failed_call|].
    destruct (is_jwk (ExportKeyActionProto.format x)); simpl; [|by intros [=]].
    answer; [left; revert H; failed_call|].
    answer; [left; revert H; failed_call|].
    by intros [=].
  - intros [= <-]. right. by exists x, x0.
Qed.

(** C10, as amended.  [format.toLowerCase() === "jwk"] holds exactly of
    the spellings of jwk whose first letter is j or J, whose second letter
    is w or W and whose third letter is k, K or the Kelvin sign U+212A.
    When the handler of ExportKey returns, its data is, for such a format,
    the UTF-8 bytes of the JSON text of what [exportKey] answered, and for
    every other format what [exportKey] answered, as it is.  When the
    handler of ImportKey returns, the key data it gave to [importKey] is,
    for such a format, the object parsed from the UTF-8 text of the key
    data of the action, and for every other format the key data of the
    action, as it is.  The handler of ImportKey throws only when one of
    its calls fails, and the handler of ExportKey only then or when the
    registry does not hold the handle. *)
Theorem jwk_format_ignores_case :
  (∀ format,
     is_jwk format = true ↔
     ∃ j w k, format = String j (String w k)
              ∧ (j = "j" ∨ j = "J")%char ∧ (w = "w" ∨ w = "W")%char
              ∧ (k = "k" ∨ k = "K" ∨ k = kelvin))
  ∧ (∀ ACTION session action ms w reply,
       switch ACTION (ActionProto.action action) = Some ExportKeyAction →
       let out := exec env (onMessage ACTION session action) ms w in
       result out = inr reply →
       ∃ params c key exportedData rest,
         let format := ExportKeyActionProto.format params in
         trace out =
           [ Answer (importProto ExportKeyAction action) (inr params);
             Answer (provider_getCrypto (ExportKeyActionProto.providerID params)) (inr c);
             Answer (subtle_exportKey c format key) (inr exportedData) ] ++ rest
         ∧ if is_jwk format then
             ∃ json utf8,
               rest = [ Answer (JSON_stringify exportedData) (inr json);
                        Answer (Convert_FromUtf8String json) (inr utf8) ]
               ∧ ResultProto.data reply = Some (ArrayBuffer utf8)
           else rest = [] ∧ ResultProto.data reply = Some exportedData)
  ∧ (∀ ACTION session action ms w reply,
       switch ACTION (ActionProto.action action) = Some ImportKeyAction →
       let out := exec env (onMessage ACTION session action) ms w in
       result out = inr reply →
       ∃ params c decoding keyData alg key rest,
         let format := ImportKeyActionProto.format params in
         trace out =
           [ Answer (importProto ImportKeyAction action) (inr params);
             Answer (provider_getCrypto (ImportKeyActionProto.providerID params)) (inr c) ]
           ++ decoding ++
           [ Answer (toAlgorithm (ImportKeyActionProto.algorithm params)) (inr alg);
             Answer (subtle_importKey c format keyData alg
                       (ImportKeyActionProto.extractable params)
                       (ImportKeyActionProto.keyUsages params)) (inr key) ]
           ++ rest
         ∧ if is_jwk format then
             ∃ json jwk,
               decoding =
                 [ Answer (Convert_ToUtf8String (ImportKeyActionProto.keyData params))
                          (inr json);
                   Answer (JSON_parse json) (inr jwk) ]
               ∧ keyData = JsonWebKey jwk
           else decoding = []
                ∧ keyData = ArrayBuffer (ImportKeyActionProto.keyData params))
  ∧ (∀ ACTION session action ms w e,
       switch ACTION (ActionProto.action action) = Some ImportKeyAction →
       let out := exec env (onMessage ACTION session action) ms w in
       result out = inl e →
       ∃ X (c : call X) before, trace out = before ++ [Answer c (inl e)])
  ∧ (∀ ACTION session action ms w e,
       switch ACTION (ActionProto.action action) = Some ExportKeyAction →
       let out := exec env (onMessage ACTION session action) ms w in
       result out = inl e →
       (∃ X (c : call X) before, trace out = before ++ [Answer c (inl e)])
       ∨ (∃ params c,
            trace out =
              [ Answer (importProto ExportKeyAction action) (inr params);
                Answer (provider_getCrypto (ExportKeyActionProto.providerID params))
                       (inr c) ]
            ∧ getItemFromStorage ms (ExportKeyActionProto.key params) = inr None
            ∧ e = TypeError "Cannot read property 'item' of undefined")).
Proof.
  split; [exact is_jwk_spelling|]. split; [|split; [|split]].
  - intros ACTION session action ms w reply Hsw out Hres.
    exact (exportKey_data ACTION session action ms w reply Hsw Hres).
  - intros ACTION session action ms w reply Hsw out Hres.
    exact (importKey_data ACTION session action ms w reply Hsw Hres).
  - intros ACTION session action ms w e Hsw out Hres.
    exact (importKey_failure ACTION session action ms w e Hsw Hres).
  - intros ACTION session action ms w e Hsw out Hres.
    exact (exportKey_failure ACTION session action ms w e Hsw Hres).
Qed.

(** ** What the two key storage handlers call *)

Lemma keyStorage_clear_calls ACTION session action ms w reply :
  switch ACTION (ActionProto.action action) = Some KeyStorageClearAction →
  let out := exec env (onMessage ACTION session action) ms w in
  result out = inr reply →
  ∃ params c,
    trace out =
      [ Answer (importProto KeyStorageClearAction action) (inr params);
        Answer (provider_getCrypto (KeyStorageClearActionProto.providerID params)) (inr c);
        Answer (certStorage_clear c) (inr ()) ].
Proof.
  intros Hsw out. subst out. unfold onMessage. rewrite Hsw. simpl.
  answer; [by intros [=]|].
  answer; [by intros [=]|].
  answer; [by intros [=]|].
  destruct x1. eauto.
Qed.

Lemma usages_argument_not_defined (keyUsages : Maybe (list string)) l :
  usages_argument keyUsages ≠ defined l.
Proof. by destruct keyUsages. Qed.

Lemma keyStorage_getItem_usages ACTION session action ms w o usages :
  switch ACTION (ActionProto.action action) = Some KeyStorageGetItemAction →
  o ∈ trace (exec env (onMessage ACTION session action) ms w) →
  getItem_usages o = Some usages →
  ∀ l, usages ≠ defined l.
Proof.
  intros Hsw. unfold onMessage. rewrite Hsw. simpl.
  answer; [by intros [[= ->]|[]%elem_of_nil]%elem_of_cons|].
  answer; [by intros [->|[[= ->]|[]%elem_of_nil]%elem_of_cons]%elem_of_cons|].
  answer; [by intros [->|[->|[[= ->]|[]%elem_of_nil]%elem_of_cons]%elem_of_cons]%elem_of_cons|].
  intros Hin Hu.
  assert (Hfirst : ∀ (r : JsError + Maybe CryptoKey.t) c key alg,
            getItem_usages (Answer (keyStorage_getItem c key alg
              (usages_argument (KeyStorageGetItemActionProto.keyUsages x))) r) = Some usages →
            ∀ l, usages ≠ defined l).
  { intros r c key alg [= <-]. apply usages_argument_not_defined. }
  revert Hin. answer.
  - intros [->|[->|[->|[->|[]%elem_of_nil]%elem_of_cons]%elem_of_cons]%elem_of_cons]%elem_of_cons;
      try discriminate Hu. eauto.
  - intros [->|[->|[->|[->|Hin]%elem_of_cons]%elem_of_cons]%elem_of_cons]%elem_of_cons;
      try discriminate Hu; [eauto|].
    revert Hin. destruct x2 as [| |key]; simpl; try by intros []%elem_of_nil.
    unfold GetIdentity. case_bool_decide; simpl; repeat answer;
      rewrite ?elem_of_cons, ?elem_of_nil; intros Hin;
      repeat (destruct Hin as [->|Hin]; [discriminate Hu|]); done.
Qed.

End ServerFacts.

Section TokenFacts.
Import LocalServer.

Lemma on_token_recipients sessions info :
  (on_token sessions info).1.*1 = List.filter cipher_and_authorized sessions.
Proof.
  revert info. induction sessions as [|session sessions IH]; intros info; [done|].
  simpl. destruct (cipher_and_authorized session); simpl; by rewrite IH.
Qed.

Lemma on_token_events sessions info session e :
  (session, e) ∈ (on_token sessions info).1 →
  ∃ info', e = ProviderTokenEventProto info'.
Proof.
  revert info. induction sessions as [|s sessions IH]; intros info; simpl.
  - by intros ?%elem_of_nil.
  - destruct (cipher_and_authorized s); simpl; [|by apply IH].
    intros [[= -> ->]|Hin]%elem_of_cons; eauto.
Qed.

(** C9.  On a token event, a session of [sessions] that has a cipher and
    is authorized is sent a [ProviderTokenEventProto]; a session that
    lacks a cipher or is not authorized is sent nothing; and nothing else
    is sent. *)
Theorem token_event_reaches_authorized_sessions sessions info session :
  session ∈ sessions →
  let sends := (on_token sessions info).1 in
  (cipher_and_authorized session = true →
     ∃ info', (session, ProviderTokenEventProto info') ∈ sends)
  ∧ (cipher_and_authorized session = false → ∀ e, (session, e) ∉ sends)
  ∧ (∀ s e, (s, e) ∈ sends →
       s ∈ sessions ∧ cipher_and_authorized s = true
       ∧ ∃ info', e = ProviderTokenEventProto info').
Proof.
  intros Hin sends.
  assert (Hrec : ∀ s, s ∈ sends.*1 ↔ s ∈ sessions ∧ cipher_and_authorized s = true).
  { intros s. subst sends. rewrite on_token_recipients.
    rewrite !list_elem_of_In, filter_In. done. }
  split; [|split].
  - intros Hok. assert (Hs : session ∈ sends.*1) by (apply Hrec; done).
    apply list_elem_of_fmap in Hs as ([s e] & -> & Hs). simpl.
    destruct (on_token_events _ _ _ _ Hs) as [info' ->]. eauto.
  - intros Hno e He.
    assert (Hs : session ∈ sends.*1).
    { apply list_elem_of_fmap. by exists (session, e). }
    apply Hrec in Hs as [_ Hs]. congruence.
  - intros s e He.
    assert (Hs : s ∈ sends.*1).
    { apply list_elem_of_fmap. by exists (s, e). }
    apply Hrec in Hs as [? ?]. repeat split; auto.
    by apply (on_token_events _ _ _ _ He).
Qed.

End TokenFacts.

Import LocalServer.

(** ** The registry lookup *)

Lemma getItemFromStorage_never_throws ms q :
  getItemFromStorage ms q = inr (some_found q ms None).
Proof.
  unfold getItemFromStorage. by destruct (bool_decide (is_Some (some_found q ms None))).
Qed.

(** C2, where the code departs from it.  The registry holds a private key
    of provider p1; a handle with the same id and type but provider p2 is
    looked up.  [getItemFromStorage] returns [undefined] and raises
    nothing; the Sign action that uses the handle fails on the member
    access, and the error in the reply is not [Cannot get CryptoItem by ID
    'ab12']. *)
Theorem foreign_handle_lookup_returns_undefined :
  let foreign := CryptoItemProto.mk "ab12" "p2" "private" in
  let sign := Sample.SignRequest (SignActionProto.mk "p2" Examples.rsa foreign []) in
  getItemFromStorage [Examples.handle_of_p1] foreign = inr None
  ∧ reply (on_message Sample.ACTION (Sample.provider sign) Examples.session
             (Examples.request "crypto/subtle/sign")
             [Examples.handle_of_p1] Examples.world)
    = ResultProto.mk "5" "crypto/subtle/sign" None
        (Some "Cannot read property 'item' of undefined").
Proof. by vm_compute. Qed.

(** C3, where the code departs from it.  The provider holds one key and
    one certificate.  After the KeyStorage.Clear action the key is still
    there and the certificate is gone: the handler never calls
    [keyStorage.clear], it calls [certStorage.clear]. *)
Theorem keyStorage_clear_clears_certificates :
  let clear := Sample.KeyStorageClearRequest (KeyStorageClearActionProto.mk "p1") in
  let out := exec (Sample.provider clear)
               (onMessage Sample.ACTION Examples.session
                  (Examples.request "crypto/keyStorage/clear"))
               [] Examples.world in
  result out = inr (ResultProto.mk "5" "crypto/keyStorage/clear" None None)
  ∧ Sample.keyStorage (world out) = [("k1", Examples.stored_key)]
  ∧ Sample.certStorage (world out) = []
  ∧ existsb is_keyStorage_clear (trace out) = false
  ∧ existsb is_certStorage_clear (trace out) = true.
Proof. by vm_compute. Qed.

(** C4, where the code departs from it.  The KeyStorage.GetItem action
    carries the usages [sign]; [keyStorage.getItem] is called with [null]
    for the usages.  Usages that are absent are passed on as they are. *)
Theorem keyStorage_getItem_drops_usages :
  let params := KeyStorageGetItemActionProto.mk "p1" "k1" Examples.rsa (defined ["sign"]) in
  let out := exec (Sample.provider (Sample.KeyStorageGetItemRequest params))
               (onMessage Sample.ACTION Examples.session
                  (Examples.request "crypto/keyStorage/getItem"))
               [] Examples.world in
  omap getItem_usages (trace out) = [null]
  ∧ usages_argument (defined ["sign"]) = null
  ∧ usages_argument undefined = (undefined : Maybe (list string)).
Proof. by vm_compute. Qed.

(** C10, a format that is no capitalization of jwk: jw followed by the
    Kelvin sign.  ImportKey reads the key data as UTF-8 JSON text and
    gives [importKey] the parsed object, not the bytes of the action. *)
Lemma kelvin_sign_selects_json :
  let format := "jw" +:+ kelvin in
  let keyData := list_byte_of_string "{}" in
  let params := ImportKeyActionProto.mk "p1" format keyData Examples.rsa true ["verify"] in
  let action := Examples.request "crypto/subtle/importKey" in
  let out := exec (Sample.provider (Sample.ImportKeyRequest params))
                  (onMessage Sample.ACTION Examples.session action) [] Examples.world in
  (format ∉ ["jwk"; "jwK"; "jWk"; "jWK"; "Jwk"; "JwK"; "JWk"; "JWK"])
  ∧ is_jwk format = true
  ∧ ∃ answer rest,
      trace out =
        [ Answer (importProto ImportKeyAction action) (inr params);
          Answer (provider_getCrypto "p1") (inr (ProviderCrypto 1));
          Answer (Convert_ToUtf8String keyData) (inr "{}");
          Answer (JSON_parse "{}") (inr [("json", "{}")]);
          Answer (toAlgorithm Examples.rsa) (inr Examples.rsa);
          Answer (subtle_importKey (ProviderCrypto 1) format (JsonWebKey [("json", "{}")])
                    Examples.rsa true ["verify"])
                 answer ] ++ rest.
Proof.
  intros format keyData params action out. split; [|split].
  - intros Hin. vm_compute in Hin.
    repeat (apply elem_of_cons in Hin as [Hin|Hin]; [discriminate Hin|]).
    by apply elem_of_nil in Hin.
  - reflexivity.
  - vm_compute. by eexists _, _.
Qed.

(** ** The theorems at work on the sample provider *)

(** C5 on the action [Nope]. *)
Lemma unknown_action_is_rejected_in_band_witness :
  let req := Sample.SignRequest
               (SignActionProto.mk "p1" Examples.rsa (CryptoItemProto.mk "ab12" "p1" "private") []) in
  reply (on_message Sample.ACTION (Sample.provider req) Examples.session
           (Examples.request "Nope") [] Examples.world)
  = ResultProto.mk "5" "Nope" None (Some "Unknown action 'Nope'").
Proof.
  intros req.
  assert (Hno : ∀ k, Sample.ACTION k ≠ ActionProto.action (Examples.request "Nope"))
    by (by intros []).
  destruct (unknown_action_is_rejected_in_band (Sample.provider req) Sample.ACTION
              Examples.session (Examples.request "Nope") [] Examples.world Hno)
    as (_ & H & _).
  exact H.
Defined.


(** C7 on a public key. *)
Lemma GetIdentity_thumbprint_witness :
  let params := GenerateKeyActionProto.mk "p1" Examples.rsa true ["sign"; "verify"] in
  let env := Sample.provider (Sample.GenerateKeyRequest params) in
  let pub := CryptoKey.mk "public" Examples.rsa true ["verify"] 1 in
  let out := exec env (GetIdentity pub (ProviderCrypto 1)) [] Examples.world in
  ∃ jwk osslKey raw hash,
    trace out =
      [ Answer (subtle_exportKey (ProviderCrypto 1) "jwk" (Key pub)) (inr jwk);
        Answer (subtle_importKey ossl "jwk" jwk Examples.rsa true ["verify"]) (inr osslKey);
        Answer (subtle_exportKey ossl "spki" (Key osslKey)) (inr raw);
        Answer (subtle_digest ossl (ByName "SHA-256") raw) (inr hash);
        Answer (Convert_ToHex hash) (inr "abcd") ].
Proof.
  intros params env pub out.
  destruct (GetIdentity_thumbprint env pub (ProviderCrypto 1) [] Examples.world)
    as (H & _ & _).
  assert (Hres : result out = inr "abcd") by (by vm_compute).
  destruct (H "abcd" Hres) as [Hpub _].
  exact (Hpub eq_refl).
Defined.

(** C9 on an authorized and an unauthorized session. *)
Lemma token_event_reaches_authorized_sessions_witness :
  let authorized := Session.mk (defined 7) true 0 in
  let unauthorized := Session.mk (defined 8) false 1 in
  let info := TokenInfo.mk [Plain (ProviderCryptoInfo.mk "t1" "TEST")] [] in
  let sends := (on_token [authorized; unauthorized] info).1 in
  (∃ info', (authorized, ProviderTokenEventProto info') ∈ sends)
  ∧ ∀ e, (unauthorized, e) ∉ sends.
Proof.
  intros authorized unauthorized info sends.
  assert (H1 : authorized ∈ [authorized; unauthorized]) by repeat constructor.
  assert (H2 : unauthorized ∈ [authorized; unauthorized]) by repeat constructor.
  destruct (token_event_reaches_authorized_sessions _ info _ H1) as (Hyes & _ & _).
  destruct (token_event_reaches_authorized_sessions _ info _ H2) as (_ & Hno & _).
  split; [exact (Hyes eq_refl)|exact (Hno eq_refl)].
Defined.

(** The amended C10 on the spelling [JwK], on an export and on an import
    as [jwk]. *)
Lemma jwk_format_ignores_case_witness :
  let exported := ExportKeyActionProto.mk "p1" "jwk" (CryptoItemProto.mk "ab12" "p1" "private") in
  let export := Examples.request "crypto/subtle/exportKey" in
  let out := exec (Sample.provider (Sample.ExportKeyRequest exported))
                  (onMessage Sample.ACTION Examples.session export)
                  [Examples.handle_of_p1] Examples.world in
  let reply := ResultProto.mk "5" "crypto/subtle/exportKey"
                 (Some (ArrayBuffer (list_byte_of_string "kty=RSA;e=AQAB;"))) None in
  let imported := ImportKeyActionProto.mk "p1" "jwk" (list_byte_of_string "{}")
                    Examples.rsa true ["verify"] in
  let import := Examples.request "crypto/subtle/importKey" in
  let out' := exec (Sample.provider (Sample.ImportKeyRequest imported))
                   (onMessage Sample.ACTION Examples.session import)
                   [] Examples.world in
  is_jwk "JwK" = true
  ∧ (∃ p c key exportedData rest,
      trace out =
        [ Answer (importProto ExportKeyAction export) (inr p);
          Answer (provider_getCrypto (ExportKeyActionProto.providerID p)) (inr c);
          Answer (subtle_exportKey c (ExportKeyActionProto.format p) key)
                 (inr exportedData) ] ++ rest
      ∧ if is_jwk (ExportKeyActionProto.format p) then
          ∃ json utf8,
            rest = [ Answer (JSON_stringify exportedData) (inr json);
                     Answer (Convert_FromUtf8String json) (inr utf8) ]
            ∧ ResultProto.data reply = Some (ArrayBuffer utf8)
        else rest = [] ∧ ResultProto.data reply = Some exportedData)
  ∧ (∃ reply' p c decoding keyData alg key rest,
      result out' = inr reply'
      ∧ trace out' =
          [ Answer (importProto ImportKeyAction import) (inr p);
            Answer (provider_getCrypto (ImportKeyActionProto.providerID p)) (inr c) ]
          ++ decoding ++
          [ Answer (toAlgorithm (ImportKeyActionProto.algorithm p)) (inr alg);
            Answer (subtle_importKey c (ImportKeyActionProto.format p) keyData alg
                      (ImportKeyActionProto.extractable p)
                      (ImportKeyActionProto.keyUsages p)) (inr key) ]
          ++ rest
      ∧ if is_jwk (ImportKeyActionProto.format p) then
          ∃ json jwk,
            decoding =
              [ Answer (Convert_ToUtf8String (ImportKeyActionProto.keyData p)) (inr json);
                Answer (JSON_parse json) (inr jwk) ]
            ∧ keyData = JsonWebKey jwk
        else decoding = [] ∧ keyData = ArrayBuffer (ImportKeyActionProto.keyData p)).
Proof.
  intros exported export out reply imported import out'.
  destruct (jwk_format_ignores_case (Sample.provider (Sample.ExportKeyRequest exported)))
    as (Hspell & Hexport & _).
  destruct (jwk_format_ignores_case (Sample.provider (Sample.ImportKeyRequest imported)))
    as (_ & _ & Himport & _).
  split; [|split].
  - apply Hspell. exists "J"%char, "w"%char, "K". auto 10.
  - assert (Hres : result out = inr reply) by (by vm_compute).
    exact (Hexport Sample.ACTION Examples.session export
                   [Examples.handle_of_p1] Examples.world reply eq_refl Hres).
  - destruct (result out') as [e|reply'] eqn:Hres; [by vm_compute in Hres|].
    destruct (Himport Sample.ACTION Examples.session import [] Examples.world reply'
                      eq_refl Hres)
      as (p & c & decoding & keyData & alg & key & rest & Htrace & Hdata).
    by exists reply', p, c, decoding, keyData, alg, key, rest.
Defined.

(** * More facts about the registry *)

Section RegistryFacts.
Import LocalServer.

Lemma some_found_find q ms :
  some_found q ms None = List.find (same_handle q) ms.
Proof.
  induction ms as [|item ms IH]; simpl; [done|].
  destruct (same_handle q item); [done|].
  rewrite bool_decide_eq_false_2; [done|]. by intros [? [=]].
Qed.

(** X1.  [getItemFromStorage] never throws: it returns the first entry of
    the registry, in the order of insertion, whose id, provider and type
    are those of the handle, and [undefined] when there is none. *)
Theorem getItemFromStorage_first_match ms q :
  getItemFromStorage ms q = inr (List.find (same_handle q) ms)
  ∧ (∀ found, List.find (same_handle q) ms = Some found →
       ∃ before after,
         ms = before ++ found :: after
         ∧ same_handle q found = true
         ∧ Forall (λ item, same_handle q item = false) before)
  ∧ (List.find (same_handle q) ms = None →
       Forall (λ item, same_handle q item = false) ms).
Proof.
  split; [|split].
  - rewrite getItemFromStorage_never_throws. by rewrite some_found_find.
  - induction ms as [|item ms IH]; simpl; [done|].
    destruct (same_handle q item) eqn:Hq.
    + intros found [= <-]. by exists [], ms.
    + intros found Hfound. destruct (IH found Hfound) as (before & after & -> & ? & ?).
      exists (item :: before), after. repeat split; auto.
  - induction ms as [|item ms IH]; simpl; [by constructor|].
    destruct (same_handle q item) eqn:Hq; [done|]. intros ?. constructor; auto.
Qed.

Lemma find_app_Some {A} (f : A → bool) l1 l2 x :
  List.find f l1 = Some x → List.find f (l1 ++ l2) = Some x.
Proof.
  induction l1 as [|a l1 IH]; simpl; [done|]. destruct (f a); auto.
Qed.


(** X2.  A handle that resolves keeps resolving to the same entry however
    many entries are pushed afterwards. *)
Theorem handle_stays_valid ms more q found :
  getItemFromStorage ms q = inr (Some found) →
  getItemFromStorage (ms ++ more) q = inr (Some found).
Proof.
  rewrite !getItemFromStorage_never_throws, !some_found_find.
  intros [= Hfound]. by rewrite (find_app_Some _ _ _ _ Hfound).
Qed.


Lemma getItemFromStorage_registered ms q found :
  getItemFromStorage ms q = inr (Some found) →
  Dispatch.registered ms (ServiceCryptoItem.item found).
Proof.
  rewrite getItemFromStorage_never_throws, some_found_find.
  intros [= [Hin _]%find_some]. exists found. split; [|done].
  by apply list_elem_of_In.
Qed.

End RegistryFacts.

(** * More facts about the handlers *)

Section HandlerFacts.
Import LocalServer.
Context {W : Type} (env : Env W).

Ltac answer :=
  match goal with
  | |- context [env ?X ?c ?w] =>
      let e := fresh "e" in
      let x := fresh "x" in
      let w' := fresh "w" in
      destruct (env X c w) as [[e|x] w'] eqn:?; simpl
  end.

Ltac lookup :=
  match goal with
  | |- context [getItemFromStorage ?ms ?q] =>
      let e := fresh "e" in
      let found := fresh "found" in
      destruct (getItemFromStorage ms q) as [e|[found|]] eqn:?; simpl
  end.

(** One step of a handler: the answer of the next call, the outcome of
    the next lookup, or the next test. *)
Ltac forward :=
  first
    [ answer
    | lookup
    | match goal with
      | |- context [if ?b then _ else _] => destruct b eqn:?; simpl
      | |- context [match ?x with null => _ | undefined => _ | defined _ => _ end] =>
          destruct x eqn:?; simpl
      | |- context [match ?x with inl _ => _ | inr _ => _ end] =>
          destruct x eqn:?; simpl
      | |- context [match ?x with SingleKey _ => _ | KeyPair _ _ => _ end] =>
          destruct x eqn:?; simpl
      end ].

(** X4.  An action whose case holds no [push] leaves the registry as it
    was, whether it returns or throws. *)
Theorem handlers_without_push_keep_registry ACTION session action ms w k :
  switch ACTION (ActionProto.action action) = Some k →
  Dispatch.pushes k = false →
  storage (exec env (onMessage ACTION session action) ms w) = ms.
Proof.
  intros Hsw Hk. unfold onMessage. rewrite Hsw.
  destruct k; try discriminate Hk; simpl;
    unfold storageItem, algorithm_or_null; simpl;
    repeat forward; done.
Qed.

Lemma registered_later ms more key :
  Dispatch.registered ms key → Dispatch.registered (ms ++ more) key.
Proof.
  intros (item & Hin & Hkey). exists item. split; [|done].
  apply elem_of_app. by left.
Qed.

(** A run among no other handlers is a run alone. *)
Lemma exec_among_alone {R} (p : Prog R) n ms w :
  Dispatch.exec_among env Dispatch.alone n p ms w = exec env p ms w.
Proof.
  revert n ms w. induction p as [r|e|X c k IH|k IH|item k IH]; intros n ms w; simpl.
  - done.
  - done.
  - rewrite app_nil_r. destruct (env X c w) as [[e|x] w']; [done|]. by rewrite IH.
  - apply IH.
  - by rewrite IH.
Qed.

(** The operands of every observation of an explicit trace, in a registry
    that has grown since the lookups. *)
Ltac operands_in_registry :=
  repeat
    match goal with
    | |- Forall _ [] => constructor
    | |- Forall _ (_ :: _) => constructor; simpl
    | H : getItemFromStorage ?ms _ = inr (Some ?found)
      |- Dispatch.registered _ (ServiceCryptoItem.item ?found) =>
        apply getItemFromStorage_registered in H;
        repeat first [ exact H | apply registered_later ]
    end.

Ltac pushed_by_others :=
  unfold Dispatch.pushed_during;
  first
    [ exists 0; simpl; by rewrite ?app_nil_r, <- ?app_assoc
    | exists 1; simpl; by rewrite ?app_nil_r, <- ?app_assoc
    | exists 2; simpl; by rewrite ?app_nil_r, <- ?app_assoc
    | exists 3; simpl; by rewrite ?app_nil_r, <- ?app_assoc
    | exists 4; simpl; by rewrite ?app_nil_r, <- ?app_assoc
    | exists 5; simpl; by rewrite ?app_nil_r, <- ?app_assoc
    | exists 6; simpl; by rewrite ?app_nil_r, <- ?app_assoc
    | exists 7; simpl; by rewrite ?app_nil_r, <- ?app_assoc
    | exists 8; simpl; by rewrite ?app_nil_r, <- ?app_assoc
    | exists 9; simpl; by rewrite ?app_nil_r, <- ?app_assoc ].

(** X5.  In the actions that work on handles and make no new key, also
    when other handlers run while the handler waits for its answers: every
    key or certificate handed to a provider operation is the live object
    of an entry of the registry, one that the registry held when the action
    arrived or that another handler pushed since; and the handler itself
    pushes nothing. *)
Theorem provider_operands_come_from_registry ACTION session action others ms w k :
  switch ACTION (ActionProto.action action) = Some k →
  Dispatch.consumes_handles k = true →
  let out := Dispatch.exec_among env others 0 (onMessage ACTION session action) ms w in
  Forall (λ o, Forall (Dispatch.registered (storage out)) (Dispatch.operands o))
         (trace out)
  ∧ ∃ n, storage out = ms ++ Dispatch.pushed_during others n.
Proof.
  intros Hsw Hk. unfold onMessage. rewrite Hsw.
  destruct k; try discriminate Hk; simpl;
    unfold storageItem; simpl;
    repeat forward; (split; [operands_in_registry|pushed_by_others]).
Qed.

Local Arguments GetIdentity : simpl never.

(** After the calls that precede it: the thumbprint, the push of the new
    entry and the encoding of its handle. *)
Ltac register_one :=
  unfold mbind, Prog_bind; rewrite !exec_bind;
  match goal with
  | |- context [exec env (GetIdentity ?key ?c) ?ms ?w] =>
      let Hst := fresh "Hst" in
      let Hid := fresh "Hid" in
      destruct (GetIdentity_quiet env key c ms w) as [Hst _]; simpl in Hst;
      destruct (exec env (GetIdentity key c) ms w) as [[?|?] ? ? ?] eqn:Hid;
      unfold and_then; simpl in *; [by intros [=]|];
      answer; [by intros [=]|];
      intros [= <-]; subst;
      first
        [ eexists _, _, c, [], _, key, w, _, _; rewrite Hid; simpl;
          split_and!;
          [ idtac | idtac | idtac
          | rewrite ?app_nil_r, <- ?app_assoc; simpl; reflexivity
          | idtac | idtac ];
          by rewrite ?app_nil_r, <- ?app_assoc
        | eexists _, _, c, [_], _, key, w, _, _; rewrite Hid; simpl;
          split_and!;
          [ idtac | idtac | idtac
          | rewrite ?app_nil_r, <- ?app_assoc; simpl; reflexivity
          | idtac | idtac ];
          by rewrite ?app_nil_r, <- ?app_assoc
        | eexists _, _, c, [_; _], _, key, w, _, _; rewrite Hid; simpl;
          split_and!;
          [ idtac | idtac | idtac
          | rewrite ?app_nil_r, <- ?app_assoc; simpl; reflexivity
          | idtac | idtac ];
          by rewrite ?app_nil_r, <- ?app_assoc
        | eexists _, _, c, [_; _; _], _, key, w, _, _; rewrite Hid; simpl;
          split_and!;
          [ idtac | idtac | idtac
          | rewrite ?app_nil_r, <- ?app_assoc; simpl; reflexivity
          | idtac | idtac ];
          by rewrite ?app_nil_r, <- ?app_assoc
        | eexists _, _, c, [_; _; _; _], _, key, w, _, _; rewrite Hid; simpl;
          split_and!;
          [ idtac | idtac | idtac
          | rewrite ?app_nil_r, <- ?app_assoc; simpl; reflexivity
          | idtac | idtac ];
          by rewrite ?app_nil_r, <- ?app_assoc
        | eexists _, _, c, [_; _; _; _; _], _, key, w, _, _; rewrite Hid; simpl;
          split_and!;
          [ idtac | idtac | idtac
          | rewrite ?app_nil_r, <- ?app_assoc; simpl; reflexivity
          | idtac | idtac ];
          by rewrite ?app_nil_r, <- ?app_assoc
        | eexists _, _, c, [_; _; _; _; _; _], _, key, w, _, _; rewrite Hid; simpl;
          split_and!;
          [ idtac | idtac | idtac
          | rewrite ?app_nil_r, <- ?app_assoc; simpl; reflexivity
          | idtac | idtac ];
          by rewrite ?app_nil_r, <- ?app_assoc ]
  end.

(** X6.  When DeriveKey, UnwrapKey, ImportKey or KeyStorage.GetItem
    returns, the handler has pushed exactly one entry.  It holds the key
    that the crypto object of the provider named in the action answered
    with, under that provider and under the thumbprint that [GetIdentity]
    then computed for this key with this crypto object; the entry was
    pushed before its handle was encoded, and the data of the reply is
    that encoding. *)
Theorem new_key_is_registered_before_reply ACTION session action ms w k reply :
  switch ACTION (ActionProto.action action) = Some k →
  Dispatch.makes_one_key k = true →
  let out := exec env (onMessage ACTION session action) ms w in
  result out = inr reply →
  ∃ params providerID c middle made key wi thumbprint raw,
    let identity := exec env (GetIdentity key c) ms wi in
    let item := ServiceCryptoItem.mk thumbprint (Key key) providerID in
    Dispatch.providerID_of k params = Some providerID
    ∧ Dispatch.made_key made = Some (c, key)
    ∧ result identity = inr thumbprint
    ∧ trace out =
        Answer (importProto k action) (inr params)
        :: Answer (provider_getCrypto providerID) (inr c)
        :: middle ++ [made] ++ trace identity ++
           [ Stored item;
             Answer (exportProto (OfItem (ServiceCryptoItem.toProto item))) (inr raw) ]
    ∧ storage out = ms ++ [item]
    ∧ ResultProto.data reply = Some (ArrayBuffer raw).
Proof.
  intros Hsw Hk out. subst out. unfold onMessage. rewrite Hsw.
  destruct k; try discriminate Hk; simpl; unfold storageItem, algorithm_or_null; simpl.
  - (* DeriveKey *)
    do 2 (answer; [by intros [=]|]). lookup; try by intros [=].
    do 3 (answer; [by intros [=]|]). lookup; try by intros [=].
    do 2 (answer; [by intros [=]|]).
    register_one.
  - (* UnwrapKey *)
    do 2 (answer; [by intros [=]|]). lookup; try by intros [=].
    do 3 (answer; [by intros [=]|]).
    register_one.
  - (* ImportKey *)
    do 2 (answer; [by intros [=]|]).
    destruct (is_jwk _); simpl.
    + do 4 (answer; [by intros [=]|]). register_one.
    + do 2 (answer; [by intros [=]|]). register_one.
  - (* KeyStorage.GetItem *)
    do 4 (answer; [by intros [=]|]).
    destruct x2 as [| |key]; simpl; try by intros [=].
    register_one.
Qed.

(** The same for a certificate: the thumbprint of its public key, the
    push of the key, the push of the certificate and the encoding. *)
Ltac register_two :=
  unfold mbind, Prog_bind; rewrite !exec_bind;
  match goal with
  | |- context [exec env (GetIdentity ?key ?c) ?ms ?w] =>
      let Hst := fresh "Hst" in
      let Hid := fresh "Hid" in
      destruct (GetIdentity_quiet env key c ms w) as [Hst _]; simpl in Hst;
      destruct (exec env (GetIdentity key c) ms w) as [[?|?] ? ? ?] eqn:Hid;
      unfold and_then; simpl in *; [by intros [=]|];
      answer; [by intros [=]|];
      intros [= <-]; subst;
      first
        [ eexists _, _, c, [], _, _, w, _, _; rewrite Hid; simpl;
          split_and!;
          [ idtac | idtac | idtac
          | rewrite ?app_nil_r, <- ?app_assoc; simpl; reflexivity
          | idtac | idtac ];
          by rewrite ?app_nil_r, <- ?app_assoc
        | eexists _, _, c, [_], _, _, w, _, _; rewrite Hid; simpl;
          split_and!;
          [ idtac | idtac | idtac
          | rewrite ?app_nil_r, <- ?app_assoc; simpl; reflexivity
          | idtac | idtac ];
          by rewrite ?app_nil_r, <- ?app_assoc
        | eexists _, _, c, [_; _], _, _, w, _, _; rewrite Hid; simpl;
          split_and!;
          [ idtac | idtac | idtac
          | rewrite ?app_nil_r, <- ?app_assoc; simpl; reflexivity
          | idtac | idtac ];
          by rewrite ?app_nil_r, <- ?app_assoc
        | eexists _, _, c, [_; _; _], _, _, w, _, _; rewrite Hid; simpl;
          split_and!;
          [ idtac | idtac | idtac
          | rewrite ?app_nil_r, <- ?app_assoc; simpl; reflexivity
          | idtac | idtac ];
          by rewrite ?app_nil_r, <- ?app_assoc
        | eexists _, _, c, [_; _; _; _], _, _, w, _, _; rewrite Hid; simpl;
          split_and!;
          [ idtac | idtac | idtac
          | rewrite ?app_nil_r, <- ?app_assoc; simpl; reflexivity
          | idtac | idtac ];
          by rewrite ?app_nil_r, <- ?app_assoc
        | eexists _, _, c, [_; _; _; _; _], _, _, w, _, _; rewrite Hid; simpl;
          split_and!;
          [ idtac | idtac | idtac
          | rewrite ?app_nil_r, <- ?app_assoc; simpl; reflexivity
          | idtac | idtac ];
          by rewrite ?app_nil_r, <- ?app_assoc
        | eexists _, _, c, [_; _; _; _; _; _], _, _, w, _, _; rewrite Hid; simpl;
          split_and!;
          [ idtac | idtac | idtac
          | rewrite ?app_nil_r, <- ?app_assoc; simpl; reflexivity
          | idtac | idtac ];
          by rewrite ?app_nil_r, <- ?app_assoc ]
  end.

(** X7.  When CertificateStorage.GetItem or CertificateStorage.Import
    returns, the handler has pushed exactly two entries under one id and
    under the provider named in the action: first the public key of the
    certificate that the crypto object of that provider answered with,
    then the certificate.  The id is the thumbprint that [GetIdentity]
    then computed for this public key with this crypto object.  Both were
    pushed before the handle of the certificate was encoded, and the data
    of the reply is that encoding. *)
Theorem certificate_is_registered_with_its_key ACTION session action ms w k reply :
  switch ACTION (ActionProto.action action) = Some k →
  Dispatch.makes_certificate k = true →
  let out := exec env (onMessage ACTION session action) ms w in
  result out = inr reply →
  ∃ params providerID c middle made cert wi thumbprint raw,
    let identity := exec env (GetIdentity (CryptoCertificate.publicKey cert) c) ms wi in
    let cryptoKey := ServiceCryptoItem.mk thumbprint
                       (Key (CryptoCertificate.publicKey cert)) providerID in
    let cryptoCert := ServiceCryptoItem.mk thumbprint (Certificate cert) providerID in
    Dispatch.providerID_of k params = Some providerID
    ∧ Dispatch.made_certificate_by made = Some (c, cert)
    ∧ result identity = inr thumbprint
    ∧ trace out =
        Answer (importProto k action) (inr params)
        :: Answer (provider_getCrypto providerID) (inr c)
        :: middle ++ [made] ++ trace identity ++
           [ Stored cryptoKey; Stored cryptoCert;
             Answer (exportProto (OfItem (ServiceCryptoItem.toProto cryptoCert))) (inr raw) ]
    ∧ storage out = ms ++ [cryptoKey; cryptoCert]
    ∧ ResultProto.data reply = Some (ArrayBuffer raw).
Proof.
  intros Hsw Hk out. subst out. unfold onMessage. rewrite Hsw.
  destruct k; try discriminate Hk; simpl; unfold algorithm_or_null; simpl.
  - do 4 (answer; [by intros [=]|]).
    destruct x2 as [| |cert]; simpl; try by intros [=].
    register_two.
  - do 3 (answer; [by intros [=]|]).
    register_two.
Qed.

(** X20.  When GenerateKey returns, the handler has pushed exactly the
    keys that [generateKey] of the provider named in the action answered
    with, under that provider: a single key as one entry, a pair as two,
    the public key first.  Their id is the thumbprint that [GetIdentity]
    then computed, with the crypto object of that provider, for the single
    key or for the public key of the pair.  The entries were pushed
    before the handle or the pair of handles was encoded, and the data of
    the reply is that encoding. *)
Theorem generateKey_registers_what_was_generated ACTION session action ms w reply :
  switch ACTION (ActionProto.action action) = Some GenerateKeyAction →
  let out := exec env (onMessage ACTION session action) ms w in
  result out = inr reply →
  ∃ params c keys wi thumbprint raw,
    let providerID := GenerateKeyActionProto.providerID params in
    let entry := λ key, ServiceCryptoItem.mk thumbprint (Key key) providerID in
    let named := match keys with SingleKey key => key | KeyPair pub _ => pub end in
    let entries := match keys with
                   | SingleKey key => [entry key]
                   | KeyPair pub priv => [entry pub; entry priv]
                   end in
    let keyProto := match keys with
                    | SingleKey key => OfItem (ServiceCryptoItem.toProto (entry key))
                    | KeyPair pub priv =>
                        OfKeyPair (CryptoKeyPairProto.mk
                                     (ServiceCryptoItem.toProto (entry priv))
                                     (ServiceCryptoItem.toProto (entry pub)))
                    end in
    let identity := exec env (GetIdentity named c) ms wi in
    result identity = inr thumbprint
    ∧ trace out =
        [ Answer (importProto GenerateKeyAction action) (inr params);
          Answer (provider_getCrypto providerID) (inr c);
          Answer (subtle_generateKey c (GenerateKeyActionProto.algorithm params)
                    (GenerateKeyActionProto.extractable params)
                    (GenerateKeyActionProto.usage params))
                 (inr keys) ]
        ++ trace identity ++ (Stored <$> entries)
        ++ [ Answer (exportProto keyProto) (inr raw) ]
    ∧ storage out = ms ++ entries
    ∧ ResultProto.data reply = Some (ArrayBuffer raw).
Proof.
  intros Hsw out. subst out. unfold onMessage. rewrite Hsw. simpl.
  do 3 (answer; [by intros [=]|]).
  destruct x1 as [key|pub priv]; simpl;
    unfold mbind, Prog_bind; rewrite !exec_bind.
  - destruct (GetIdentity_quiet env key x0 ms w2) as [Hst _]. simpl in Hst.
    destruct (exec env (GetIdentity key x0) ms w2) as [[e|thumbprint] ms' wi t] eqn:Hid;
      unfold and_then; simpl in *; [by intros [=]|].
    answer; [by intros [=]|].
    intros [= <-]. subst ms'.
    exists x, x0, (SingleKey key), w2, thumbprint. eexists. rewrite Hid. simpl.
    split_and!; try done. by rewrite app_nil_r, <- !app_assoc.
  - destruct (GetIdentity_quiet env pub x0 ms w2) as [Hst _]. simpl in Hst.
    destruct (exec env (GetIdentity pub x0) ms w2) as [[e|thumbprint] ms' wi t] eqn:Hid;
      unfold and_then; simpl in *; [by intros [=]|].
    answer; [by intros [=]|].
    intros [= <-]. subst ms'.
    exists x, x0, (KeyPair pub priv), w2, thumbprint. eexists. rewrite Hid. simpl.
    split_and!; try done.
    + by rewrite app_nil_r, <- !app_assoc.
    + by rewrite <- app_assoc.
Qed.

(** Where an entry of an explicit registry comes from. *)
Ltac origin Hin :=
  lazymatch type of Hin with
  | _ ∨ _ => destruct Hin as [Hin|Hin]; [origin Hin|origin Hin]
  | False => destruct Hin
  | _ ∈ Dispatch.pushed (_ ?n) => right; left; by exists n
  | _ ∈ _ => by left
  | _ = _ =>
      right; right; subst;
      match goal with
      | H : env _ (Convert_ToHex ?b) _ = (inr ?hex, _) |- _ =>
          exists (Answer (Convert_ToHex b) (inr hex))
      end;
      split; [rewrite !elem_of_cons; by auto 20|done]
  end.

(** X21.  Whatever a handler leaves in the registry, also when other
    handlers run while it waits for its answers, is an entry that the
    registry held when the action arrived, an entry that another handler
    pushed, or an entry whose id is a hex text that [Convert.ToHex]
    answered with during the run of the handler: a handler registers under
    thumbprints that it has computed and under no other id, whether it
    returns or throws. *)
Theorem handlers_register_under_thumbprints ACTION session action others ms w :
  let out := Dispatch.exec_among env others 0 (onMessage ACTION session action) ms w in
  ∀ item, item ∈ storage out →
    item ∈ ms
    ∨ (∃ n, item ∈ Dispatch.pushed (others n))
    ∨ ∃ o, o ∈ trace out ∧ Dispatch.hex_answer o = Some (ServiceCryptoItem.id item).
Proof.
  unfold onMessage. destruct (switch ACTION (ActionProto.action action)) as [k|];
    [|simpl; by left].
  destruct k; simpl; unfold storageItem, algorithm_or_null, GetIdentity; simpl;
    repeat forward;
    (let item := fresh "item" in
     let Hin := fresh "Hin" in
     intros item Hin;
     rewrite ?elem_of_app, ?elem_of_cons, ?elem_of_nil in Hin;
     origin Hin).
Qed.

Lemma GetIdentity_asks_no_storage key provider ms w :
  Forall (λ o, Dispatch.getItem_answer o = None)
         (trace (exec env (GetIdentity key provider) ms w)).
Proof.
  unfold GetIdentity. simpl.
  case_bool_decide; simpl; repeat answer; by repeat constructor.
Qed.

(** X8.  When [keyStorage.getItem] answers with nothing for the key it
    was asked for, KeyStorage.GetItem throws [Cannot get key by identity
    '<key>']: it calls nothing after that answer and pushes nothing. *)
Theorem keyStorage_getItem_miss ACTION session action ms w o key found :
  switch ACTION (ActionProto.action action) = Some KeyStorageGetItemAction →
  let out := exec env (onMessage ACTION session action) ms w in
  o ∈ trace out →
  Dispatch.getItem_answer o = Some (key, found) →
  truthy_object found = false →
  result out = inl (Error ("Cannot get key by identity '" +:+ key +:+ "'"))
  ∧ storage out = ms
  ∧ last (trace out) = Some o.
Proof.
  intros Hsw out. subst out. unfold onMessage. rewrite Hsw.
  simpl. unfold algorithm_or_null. simpl.
  answer; [by intros [->|[]%elem_of_nil]%elem_of_cons|].
  answer; [by intros [->|[->|[]%elem_of_nil]%elem_of_cons]%elem_of_cons|].
  answer; [by intros [->|[->|[->|[]%elem_of_nil]%elem_of_cons]%elem_of_cons]%elem_of_cons|].
  answer;
    [by intros [->|[->|[->|[->|[]%elem_of_nil]%elem_of_cons]%elem_of_cons]%elem_of_cons]%elem_of_cons|].
  destruct x2 as [| |stored]; simpl.
  - intros [->|[->|[->|[->|[]%elem_of_nil]%elem_of_cons]%elem_of_cons]%elem_of_cons]%elem_of_cons;
      try done. by intros [= <- <-].
  - intros [->|[->|[->|[->|[]%elem_of_nil]%elem_of_cons]%elem_of_cons]%elem_of_cons]%elem_of_cons;
      try done. by intros [= <- <-].
  - unfold mbind, Prog_bind. rewrite !exec_bind.
    pose proof (GetIdentity_asks_no_storage stored x0 ms w3) as Hno.
    destruct (exec env (GetIdentity stored x0) ms w3) as [[?|?] ? ? t];
      unfold and_then; simpl in *; try answer;
      match goal with
      | |- _ ∈ _ :: _ :: _ :: _ :: ?rest → _ =>
          assert (Hrest : Forall (λ o, Dispatch.getItem_answer o = None) rest)
            by (rewrite ?app_nil_r; repeat apply Forall_app_2;
                try done; by repeat constructor)
      end;
      rewrite Forall_forall in Hrest;
      (intros [->|[->|[->|[->|Hin]%elem_of_cons]%elem_of_cons]%elem_of_cons]%elem_of_cons;
       try done; [by intros [= <- <-]|]);
      intros Hans; apply Hrest in Hin; congruence.
Qed.

(** X9.  Login calls [crypto.login] only with the value that the prompt
    delivered together with the response [replied]; a prompt that ends
    with any other response makes Login throw [CryptoLogin timeout]
    without calling [crypto.login]; and the prompt is shown at most
    once. *)
Theorem login_follows_the_prompt ACTION session action ms w :
  switch ACTION (ActionProto.action action) = Some LoginAction →
  let out := exec env (onMessage ACTION session action) ms w in
  (∀ pin, pin ∈ omap Dispatch.login_pin (trace out) →
          omap Dispatch.notified (trace out) = [("replied", defined pin)])
  ∧ (∀ response value,
        (response, value) ∈ omap Dispatch.notified (trace out) →
        response ≠ "replied" →
        result out = inl (Error "CryptoLogin timeout")
        ∧ omap Dispatch.login_pin (trace out) = [])
  ∧ length (omap Dispatch.notified (trace out)) ≤ 1.
Proof.
  intros Hsw out. subst out. unfold onMessage. rewrite Hsw. simpl.
  assert (Hnone : ∀ (r : JsError + ResultProto.t),
            (∀ pin, pin ∈ @nil string → @nil (string * Maybe string) = [("replied", defined pin)])
            ∧ (∀ response value,
                 (response, value) ∈ @nil (string * Maybe string) →
                 response ≠ "replied" →
                 r = inl (Error "CryptoLogin timeout") ∧ @nil string = [])
            ∧ length (@nil (string * Maybe string)) ≤ 1).
  { intros r. split; [|split]; [by intros ? []%elem_of_nil| |simpl; lia].
    by intros ? ? []%elem_of_nil. }
  do 3 (answer; [apply Hnone|]).
  destruct x1; simpl; [|apply Hnone].
  answer; [apply Hnone|].
  destruct x1 as [response value]. simpl.
  case_bool_decide as Hresponse; simpl.
  { split; [|split]; [by intros ? []%elem_of_nil| |lia].
    by intros ? ? [[= -> ->]|[]%elem_of_nil]%elem_of_cons. }
  subst response.
  destruct value as [| |pin]; simpl; try answer;
    (split; [|split]; [| |lia]);
    try (by intros ? []%elem_of_nil);
    try (by intros ? [->|[]%elem_of_nil]%elem_of_cons);
    by intros ? ? [[= -> ->]|[]%elem_of_nil]%elem_of_cons.
Qed.

(** X10.  When Verify or IsLoggedIn returns, the data of the reply is a
    single byte: 1 when [subtle.verify] answered true (when
    [crypto.isLoggedIn] was true), 0 otherwise; that answer was asked for
    exactly once. *)
Theorem flag_is_one_byte ACTION session action ms w k reply :
  switch ACTION (ActionProto.action action) = Some k →
  k = VerifyAction ∨ k = IsLoggedInAction →
  let out := exec env (onMessage ACTION session action) ms w in
  result out = inr reply →
  ∃ ok,
    omap Dispatch.flag_answer (trace out) = [ok]
    ∧ ResultProto.data reply
      = Some (ArrayBuffer [if ok : bool then Byte.x01 else Byte.x00]).
Proof.
  intros Hsw Hk out. subst out. unfold onMessage. rewrite Hsw.
  destruct Hk as [-> | ->]; simpl; unfold storageItem; simpl;
    repeat forward; try (by intros [=]); intros [= <-]; eauto.
Qed.


End HandlerFacts.

Section SessionFacts.
Import LocalServer.

(** X12.  The listener of [connect] adds a session only when the list
    does not hold it: a list without repetition stays so, the session is
    in the list afterwards, every earlier session is still there in its
    place, and a second connect of the same session changes nothing. *)
Theorem on_connect_keeps_sessions_distinct session sessions :
  NoDup sessions →
  NoDup (on_connect session sessions)
  ∧ session ∈ on_connect session sessions
  ∧ (∃ added, on_connect session sessions = sessions ++ added)
  ∧ on_connect session (on_connect session sessions) = on_connect session sessions.
Proof.
  intros Hnd.
  assert (Hcase : (session ∈ sessions ∧ on_connect session sessions = sessions)
                  ∨ ((session ∉ sessions) ∧ on_connect session sessions = sessions ++ [session])).
  { unfold on_connect.
    destruct (existsb (λ item, bool_decide (item = session)) sessions) eqn:Hex.
    - apply existsb_exists in Hex as (item & Hin & ->%bool_decide_eq_true).
      left. split; [by apply list_elem_of_In|].
      destruct sessions; [by destruct Hin|]. by rewrite bool_decide_eq_true_2.
    - right. rewrite andb_false_r. simpl. split; [|done].
      intros Hin%list_elem_of_In.
      assert (existsb (λ item, bool_decide (item = session)) sessions = true);
        [|congruence].
      apply existsb_exists. exists session. by rewrite bool_decide_eq_true_2. }
  assert (Hafter : session ∈ on_connect session sessions).
  { destruct Hcase as [[? ->]|[? ->]]; [done|]. apply elem_of_app. right. by left. }
  split; [|split; [done|split]].
  - destruct Hcase as [[? ->]|[? ->]]; [done|].
    apply NoDup_app. split; [done|]. split; [|apply NoDup_singleton].
    by intros ? ? ->%list_elem_of_singleton.
  - destruct Hcase as [[? ->]|[? ->]]; [exists []; by rewrite app_nil_r|eauto].
  - unfold on_connect at 1.
    assert (existsb (λ item, bool_decide (item = session))
                    (on_connect session sessions) = true) as ->.
    { apply existsb_exists. exists session. split; [by apply list_elem_of_In|].
      by rewrite bool_decide_eq_true_2. }
    destruct (on_connect session sessions); [by apply elem_of_nil in Hafter|].
    by rewrite bool_decide_eq_true_2.
Qed.

Lemma wrapped_S n info :
  Dispatch.wrapped n
    (TokenInfo.mk (ProviderCryptoProto <$> TokenInfo.added info)
                  (ProviderCryptoProto <$> TokenInfo.removed info))
  = Dispatch.wrapped (S n) info.
Proof.
  unfold Dispatch.wrapped. simpl. f_equal.
  - induction n as [|n IH]; simpl; [done|]. by rewrite IH.
  - induction n as [|n IH]; simpl; [done|]. by rewrite IH.
Qed.

Lemma wrapped_0 info : Dispatch.wrapped 0 info = info.
Proof. by destruct info. Qed.

(** X13.  The token listener rewrites the arrays of [info] in place once
    for every session it serves: when [server.send] is called for the i-th
    served session (counting from 0), every element of [info.added] and
    [info.removed] is wrapped [i + 1] times in [ProviderCryptoProto], and
    the listener leaves [info] with every element wrapped as often as
    sessions were served. *)
Theorem token_payload_is_rewrapped sessions info :
  let served := length (List.filter cipher_and_authorized sessions) in
  (on_token sessions info).2 = Dispatch.wrapped served info
  ∧ length (on_token sessions info).1 = served
  ∧ ∀ i session e,
      (on_token sessions info).1 !! i = Some (session, e) →
      e = ProviderTokenEventProto (Dispatch.wrapped (S i) info).
Proof.
  revert info. induction sessions as [|s sessions IH]; intros info; simpl.
  - split; [by rewrite wrapped_0|]. split; [done|]. by intros [|?] ? ? [=].
  - destruct (cipher_and_authorized s); simpl; [|apply IH].
    set (info' := TokenInfo.mk _ _).
    destruct (IH info') as (Hfinal & Hlen & Hsent).
    split; [rewrite Hfinal; unfold info'; by rewrite wrapped_S|].
    split; [by rewrite Hlen|].
    intros [|i] session e; simpl.
    + intros [= <- <-]. f_equal.
    + intros He. rewrite (Hsent _ _ _ He). unfold info'. by rewrite wrapped_S.
Qed.

End SessionFacts.

(** * More facts about the client *)

Section MoreClientFacts.
Import Client.
Variable importProto : bytes → JsError + ResultProto.t.

Lemma calls_grow_step c s :
  ∃ more, calls (step importProto c s) = calls c ++ more.
Proof.
  destruct s as [event data|p raw|[err|message]|]; simpl.
  - unfold send. destruct (checkSocketState c); simpl; [eauto|].
    exists []. by rewrite app_nil_r.
  - unfold send_then. destruct (chains c !! p); [|exists []; by rewrite app_nil_r].
    destruct raw; exists []; by rewrite app_nil_r.
  - exists []. by rewrite app_nil_r.
  - unfold onMessage. destruct (importProto message); [exists []; by rewrite app_nil_r|].
    destruct (truthy_string _), (stack c !! _); simpl; eauto;
      exists []; by rewrite app_nil_r.
  - exists []. by rewrite app_nil_r.
Qed.

Lemma calls_grow steps c :
  ∃ more, calls (run importProto steps c) = calls c ++ more.
Proof.
  revert c. induction steps as [|s steps IH]; intros c; simpl.
  - exists []. by rewrite app_nil_r.
  - destruct (IH (step importProto c s)) as [more2 ->].
    destruct (calls_grow_step c s) as [more1 ->].
    exists (more1 ++ more2). by rewrite app_assoc.
Qed.

Lemma not_open_step c s :
  readyState c ≠ open →
  let c' := step importProto c s in
  readyState c' ≠ open
  ∧ messageCounter c' = messageCounter c
  ∧ chains c' ⊆ chains c
  ∧ promises c ≤ promises c'
  ∧ (∀ p, promises c ≤ p < promises c' →
          Rejected (RejectOf p) (Error "Socket connection is not open") ∈ calls c')
  ∧ ∃ frames, sent c' = sent c ++ frames
              ∧ length frames + size (chains c') ≤ size (chains c).
Proof.
  intros Hc.
  assert (Hsame : ∀ c', readyState c' = readyState c →
            messageCounter c' = messageCounter c → chains c' = chains c →
            promises c' = promises c → sent c' = sent c →
            readyState c' ≠ open
            ∧ messageCounter c' = messageCounter c
            ∧ chains c' ⊆ chains c
            ∧ promises c ≤ promises c'
            ∧ (∀ p, promises c ≤ p < promises c' →
                    Rejected (RejectOf p) (Error "Socket connection is not open") ∈ calls c')
            ∧ ∃ frames, sent c' = sent c ++ frames
                        ∧ length frames + size (chains c') ≤ size (chains c)).
  { intros c' -> -> -> -> ->. split_and!; auto; [lia|].
    exists []. by rewrite app_nil_r. }
  destruct s as [event data|p raw|[err|message]|]; simpl.
  - unfold send, checkSocketState, state. rewrite decide_False by done. simpl.
    split_and!; auto.
    + intros p Hp. assert (p = promises c) as -> by lia.
      apply elem_of_app. right. by left.
    + exists []. by rewrite app_nil_r.
  - unfold send_then, socket_send. destruct (chains c !! p) as [r|] eqn:Hp; [|by apply Hsame].
    assert (Hsize : size (delete p (chains c)) = pred (size (chains c)))
      by (apply map_size_delete_Some; eauto).
    assert (Hpos : size (chains c) ≠ 0) by (eapply map_size_ne_0_lookup_2; eauto).
    destruct raw as [e|raw]; simpl; split_and!;
      try done; try apply delete_subseteq; try (intros; lia).
    + exists []. rewrite app_nil_r. split; [done|]. simpl. lia.
    + exists [raw]. split; [done|]. simpl. lia.
  - by apply Hsame.
  - unfold onMessage. destruct (importProto message); [by apply Hsame|].
    destruct (truthy_string _), (stack c !! _); by apply Hsame.
  - split_and!; auto; try (intros; lia). exists []. by rewrite app_nil_r.
Qed.

Lemma not_open_run c steps :
  readyState c ≠ open →
  let c' := run importProto steps c in
  readyState c' ≠ open
  ∧ messageCounter c' = messageCounter c
  ∧ chains c' ⊆ chains c
  ∧ (∀ p, promises c ≤ p < promises c' →
          Rejected (RejectOf p) (Error "Socket connection is not open") ∈ calls c')
  ∧ ∃ frames, sent c' = sent c ++ frames
              ∧ length frames + size (chains c') ≤ size (chains c).
Proof.
  revert c. induction steps as [|s steps IH]; intros c Hc; simpl.
  - split_and!; auto; [intros p Hp; lia|]. exists []. by rewrite app_nil_r.
  - destruct (not_open_step c s Hc)
      as (Hc1 & Hcounter & Hchains & Hle & Hrej & frames & Hsent & Hsize).
    destruct (IH _ Hc1) as (Hc' & Hcounter' & Hchains' & Hrej' & frames' & Hsent' & Hsize').
    rewrite Hcounter'. split_and!; auto.
    + by etrans.
    + intros p Hp. destruct (decide (p < promises (step importProto c s))) as [Hlt|Hge].
      * destruct (calls_grow steps (step importProto c s)) as [more ->].
        apply elem_of_app. left. apply Hrej. lia.
      * apply Hrej'. lia.
    + exists (frames ++ frames'). rewrite Hsent', Hsent, app_assoc. split; [done|].
      rewrite length_app. lia.
Qed.

(** X14.  On a client whose socket is not open, through any sequence of
    calls of [send], continuations of earlier calls of [send], inbound
    frames and close events: no [actionId] is assigned, no new
    continuation is started, and the promise of every new [send] is
    rejected at once with [Socket connection is not open].  The only
    frames still handed to the socket are those of continuations that were
    waiting already, at most one for each. *)
Theorem not_open_socket_sends_nothing c steps :
  readyState c ≠ open →
  let c' := run importProto steps c in
  messageCounter c' = messageCounter c
  ∧ chains c' ⊆ chains c
  ∧ (∀ p, promises c ≤ p < promises c' →
          Rejected (RejectOf p) (Error "Socket connection is not open") ∈ calls c')
  ∧ ∃ frames, sent c' = sent c ++ frames
              ∧ length frames + size (chains c') ≤ size (chains c).
Proof.
  intros Hc. by destruct (not_open_run c steps Hc) as (_ & ? & ? & ? & ?).
Qed.

Lemma counter_grows_step c s :
  (messageCounter c ≤ messageCounter (step importProto c s))%N.
Proof.
  destruct s as [event data|p raw|[err|message]|]; simpl; try lia.
  - unfold send. destruct (checkSocketState c); simpl; [lia|].
    unfold js_succ. case_decide; lia.
  - unfold send_then. destruct (chains c !! p); [|lia]. destruct raw; simpl; lia.
  - unfold onMessage. destruct (importProto message); [simpl; lia|].
    destruct (truthy_string _), (stack c !! _); simpl; lia.
Qed.

Lemma counter_grows steps c :
  (messageCounter c ≤ messageCounter (run importProto steps c))%N.
Proof.
  revert c. induction steps as [|s steps IH]; intros c; simpl; [lia|].
  pose proof (counter_grows_step c s). pose proof (IH (step importProto c s)). lia.
Qed.

(** X15.  A [send] on an open socket writes the decimal of the counter
    into its object as [actionId]; as long as the counter is below 2^53,
    no later [send] is given that [actionId] again. *)
Theorem actionId_is_not_reused c event data later :
  readyState c = open →
  (messageCounter c < 2 ^ 53)%N →
  let c1 := send event data c in
  ActionProto.actionId <$> heap c1 !! data_object data c
  = Some (toString (messageCounter c))
  ∧ toString (messageCounter (run importProto later c1)) ≠ toString (messageCounter c).
Proof.
  intros Hopen Hsmall c1.
  assert (Hc1 : messageCounter c1 = (messageCounter c + 1)%N
                ∧ ActionProto.actionId <$> heap c1 !! data_object data c
                  = Some (toString (messageCounter c))).
  { subst c1. unfold send, checkSocketState, state. rewrite Hopen. simpl.
    fold (data_object data c). rewrite lookup_insert_eq. simpl.
    unfold js_succ. by rewrite decide_True. }
  destruct Hc1 as [Hcounter Hid]. split; [done|].
  pose proof (counter_grows later c1) as Hle.
  unfold toString. intros Heq%(inj pretty). lia.
Qed.

(** X16.  In every client that can be reached, an entry of the pending
    map holds the two functions of one promise that [send] has created,
    neither of which has been called, and no other key holds them. *)
Theorem pending_entries_are_unsettled steps addr k item :
  let c := run importProto steps (connected addr) in
  stack c !! k = Some item →
  ∃ p, item = own p
       ∧ p < promises c
       ∧ settlements p c = 0
       ∧ ∀ k', stack c !! k' = Some item → k' = k.
Proof.
  intros c Hk. assert (Hinv : inv c) by apply inv_run, inv_connected.
  destruct (inv_stack _ Hinv _ _ Hk) as (p & -> & Hp & _ & Hn).
  exists p. repeat split; auto. intros k' Hk'. by apply (inv_inj _ Hinv k' k p).
Qed.

End MoreClientFacts.

(** * Facts about the client's handshake *)

Section HandshakeFacts.
Import Connect.
Context {W : Type} (env : Env W).

Local Ltac reply :=
  match goal with
  | |- context [env ?X ?c ?w] =>
      let e := fresh "e" in let x := fresh "x" in let w' := fresh "w" in
      destruct (env X c w) as [[e|x] w']; simpl
  end.

(** The first part of the handshake, before any continuation [session]:
    the identity is loaded, or created and saved. *)
Lemma provision_identity (session : Storage → Identity → Prog unit) i w :
  (∀ storage identity w2,
     let out := exec env (session storage identity) None w2 in
     (i ∈ omap session_identity (trace out) → i = identity)
     ∧ omap loaded (trace out) = []
     ∧ omap created (trace out) = []
     ∧ omap saved (trace out) = []) →
  let out := exec env
    (storage ← await BrowserStorage_create;
     loaded ← await (loadIdentity storage);
     identity ←
       match loaded with
       | LocalServer.defined found => Ret found
       | _ =>
           identity ← await (Identity_create 1);
           await (saveIdentity storage identity);;
           Ret identity
       end;
     session storage identity) None w in
  i ∈ omap session_identity (trace out) →
  (omap loaded (trace out) = [LocalServer.defined i]
   ∧ omap created (trace out) = []
   ∧ omap saved (trace out) = [])
  ∨ (∃ v, omap loaded (trace out) = [v]
        ∧ LocalServer.truthy_object v = false
        ∧ omap created (trace out) = [(1%N, i)]
        ∧ omap saved (trace out) = [i]).
Proof.
  intros Hrest. unfold mbind, Prog_bind, await; simpl.
  reply; [by intros ?%elem_of_nil|].
  reply; [by intros ?%elem_of_nil|].
  destruct x0 as [| |found]; simpl.
  - reply; [by intros ?%elem_of_nil|].
    reply; [by intros ?%elem_of_nil|].
    destruct (Hrest x x0 w3) as (Hi & Hl & Hc & Hs). simpl in *.
    intros ->%Hi. right. exists LocalServer.null.
    repeat split; try done; f_equal; first [exact Hl|exact Hc|exact Hs].
  - reply; [by intros ?%elem_of_nil|].
    reply; [by intros ?%elem_of_nil|].
    destruct (Hrest x x0 w3) as (Hi & Hl & Hc & Hs). simpl in *.
    intros ->%Hi. right. exists LocalServer.undefined.
    repeat split; try done; f_equal; first [exact Hl|exact Hc|exact Hs].
  - destruct (Hrest x found w1) as (Hi & Hl & Hc & Hs). simpl in *.
    intros ->%Hi. left.
    repeat split; try done; try f_equal; first [exact Hl|exact Hc|exact Hs].
Qed.

(** X17. The identity the ratchet session is created from is the one the
    browser storage holds; only when the storage holds none is a new identity
    created with [Identity.create(1)], and that one is saved to the storage
    before the session is created from it. *)
Theorem session_identity_is_stored info address w i :
  let r := socket_onopen env info address w in
  i ∈ omap session_identity (calls_made r) →
  (omap loaded (calls_made r) = [LocalServer.defined i]
   ∧ omap created (calls_made r) = []
   ∧ omap saved (calls_made r) = [])
  ∨ (∃ v, omap loaded (calls_made r) = [v]
        ∧ LocalServer.truthy_object v = false
        ∧ omap created (calls_made r) = [(1%N, i)]
        ∧ omap saved (calls_made r) = [i]).
Proof.
  unfold socket_onopen, calls_made.
  apply (provision_identity (λ storage identity,
    raw ← await (Convert_FromBase64 (ServerInfo.preKey info));
    bundle ← await (PreKeyBundleProtocol_importProto raw);
    cipher ← await (AsymmetricRatchet_create identity bundle);
    SetCipher cipher (
      remote ← await (remoteIdentity cipher);
      await (saveRemoteIdentity storage "0" remote);;
      await (cipher_on cipher "update");;
      await (emit_listening address);;
      Ret ()))).
  intros storage identity w2. unfold mbind, Prog_bind, await; simpl.
  reply; [by split; [intros ?%elem_of_nil|]|].
  reply; [by split; [intros ?%elem_of_nil|]|].
  reply; [by split; [intros [->|?%elem_of_nil]%elem_of_cons|]|].
  reply; [by split; [intros [->|?%elem_of_nil]%elem_of_cons|]|].
  reply; [by split; [intros [->|?%elem_of_nil]%elem_of_cons|]|].
  reply; [by split; [intros [->|?%elem_of_nil]%elem_of_cons|]|].
  reply; by split; [intros [->|?%elem_of_nil]%elem_of_cons|].
Qed.



End HandshakeFacts.

(** * Facts about the key form *)

Section KeyInfoFacts.
Import KeyInfo.

Lemma scan_last data keys i index :
  (scan data keys i index = index
   ∧ Forall (λ key, Algorithm.name key ≠ data) keys)
  ∨ (∃ j key,
       scan data keys i index = i + j
       ∧ keys !! j = Some key
       ∧ Algorithm.name key = data
       ∧ Forall (λ key, Algorithm.name key ≠ data) (drop (S j) keys)).
Proof.
  revert i index. induction keys as [|key keys IH]; intros i index; simpl.
  - left. by split.
  - destruct (IH (S i) (if bool_decide (Algorithm.name key = data) then i else index))
      as [[-> Hnone]|(j & key' & -> & Hj & Hname & Hlater)].
    + case_bool_decide as Hkey.
      * right. exists 0, key. rewrite Nat.add_0_r. simpl. by rewrite drop_0.
      * left. split; [done|]. by constructor.
    + right. exists (S j), key'. split; [lia|]. by simpl.
Qed.

(** X19. For a string [data], [handleChangeAlgorithm] sets the index to the
    position of the last algorithm of [keyInfoData] that is named [data]; when
    there is none the index is 0.  So over a non-empty [keyInfoData] the
    index always points at an entry, as [render] needs. *)
Theorem handleChangeAlgorithm_index keyInfoData data :
  let value := handleChangeAlgorithm keyInfoData (inl data) in
  AlgorithmValue.name value = data
  ∧ AlgorithmValue.value value = data
  ∧ ((∃ key, currentAlgorithmData keyInfoData value = Some key
           ∧ Algorithm.name key = data
           ∧ Forall (λ key, Algorithm.name key ≠ data)
                    (drop (S (AlgorithmValue.index value)) keyInfoData))
     ∨ (AlgorithmValue.index value = 0
        ∧ Forall (λ key, Algorithm.name key ≠ data) keyInfoData))
  ∧ (keyInfoData ≠ [] → is_Some (currentAlgorithmData keyInfoData value)).
Proof.
  unfold currentAlgorithmData; simpl. split; [done|]. split; [done|].
  destruct (scan_last data keyInfoData 0 0)
    as [[-> Hnone]|(j & key & -> & Hj & Hname & Hlater)]; simpl.
  - split; [by right|]. destruct keyInfoData; [done|by eexists].
  - split; [left; by exists key|]. intros _. by exists key.
Qed.

End KeyInfoFacts.

(** * The facts above on examples *)

Section Instances.
Import LocalServer.

Lemma handle_stays_valid_witness :
  let later := ServiceCryptoItem.mk "ab12" (Key Examples.stored_key) "p1" in
  getItemFromStorage ([Examples.handle_of_p1] ++ [later])
                     (CryptoItemProto.mk "ab12" "p1" "private")
  = inr (Some Examples.handle_of_p1).
Proof.
  intros later. apply handle_stays_valid. reflexivity.
Defined.

Lemma handlers_without_push_keep_registry_witness :
  let env := Sample.provider (Sample.KeyStorageClearRequest (KeyStorageClearActionProto.mk "p1")) in
  storage (exec env (onMessage Sample.ACTION Examples.session
                       (Examples.request "crypto/keyStorage/clear"))
                [Examples.handle_of_p1] Examples.world)
  = [Examples.handle_of_p1].
Proof.
  intros env.
  apply (handlers_without_push_keep_registry env Sample.ACTION Examples.session
           (Examples.request "crypto/keyStorage/clear") [Examples.handle_of_p1]
           Examples.world KeyStorageClearAction); reflexivity.
Defined.

Lemma provider_operands_come_from_registry_witness :
  let params := ExportKeyActionProto.mk "p1" "jwk" (CryptoItemProto.mk "ab12" "p1" "private") in
  let env := Sample.provider (Sample.ExportKeyRequest params) in
  let others := λ n, Dispatch.mkMeanwhile
                       (if bool_decide (n = 0) then [Examples.handle_of_p1] else []) id in
  let out := Dispatch.exec_among env others 0
               (onMessage Sample.ACTION Examples.session
                          (Examples.request "crypto/subtle/exportKey"))
               [] Examples.world in
  Answer (subtle_exportKey (ProviderCrypto 1) "jwk"
            (ServiceCryptoItem.item Examples.handle_of_p1))
         (inr (JsonWebKey [("kty", "RSA"); ("e", "AQAB")])) ∈ trace out
  ∧ Forall (λ o, Forall (Dispatch.registered (storage out)) (Dispatch.operands o))
           (trace out)
  ∧ ∃ n, storage out = [] ++ Dispatch.pushed_during others n.
Proof.
  intros params env others out. split.
  - vm_compute. do 2 right. left.
  - apply (provider_operands_come_from_registry env Sample.ACTION Examples.session
             (Examples.request "crypto/subtle/exportKey") others []
             Examples.world ExportKeyAction); reflexivity.
Defined.

Lemma new_key_is_registered_before_reply_witness :
  let params := ImportKeyActionProto.mk "p1" "raw" [Byte.x01] Examples.rsa true ["verify"] in
  let env := Sample.provider (Sample.ImportKeyRequest params) in
  let out := exec env (onMessage Sample.ACTION Examples.session
                         (Examples.request "crypto/subtle/importKey"))
                  [Examples.handle_of_p1] Examples.world in
  ∃ reply made c key thumbprint providerID raw,
    result out = inr reply
    ∧ made ∈ trace out
    ∧ Dispatch.made_key made = Some (c, key)
    ∧ storage out
      = [Examples.handle_of_p1] ++ [ServiceCryptoItem.mk thumbprint (Key key) providerID]
    ∧ ResultProto.data reply = Some (ArrayBuffer raw).
Proof.
  intros params env out.
  destruct (result out) as [e|reply] eqn:Hres; [by vm_compute in Hres|].
  destruct (new_key_is_registered_before_reply env Sample.ACTION Examples.session
              (Examples.request "crypto/subtle/importKey") [Examples.handle_of_p1]
              Examples.world ImportKeyAction reply eq_refl eq_refl Hres)
    as (p & providerID & c & middle & made & key & wi & thumbprint & raw
        & Hp & Hmade & _ & Htrace & Hst & Hdata).
  exists reply, made, c, key, thumbprint, providerID, raw. split_and!; try done.
  unfold out. rewrite Htrace. rewrite !elem_of_cons, !elem_of_app, !elem_of_cons. auto 10.
Defined.

Lemma certificate_is_registered_with_its_key_witness :
  let params := CertificateStorageImportActionProto.mk "p1" "x509" [Byte.x30]
                  Examples.rsa ["verify"] in
  let env := Probe.provider (Probe.CertificateStorageImportRequest params) in
  let out := exec env (onMessage Sample.ACTION Examples.session
                         (Examples.request "crypto/certificateStorage/import"))
                  [] Examples.world in
  ∃ reply made c cert thumbprint providerID,
    result out = inr reply
    ∧ made ∈ trace out
    ∧ Dispatch.made_certificate_by made = Some (c, cert)
    ∧ storage out
      = [] ++ [ ServiceCryptoItem.mk thumbprint (Key (CryptoCertificate.publicKey cert))
                                     providerID;
                ServiceCryptoItem.mk thumbprint (Certificate cert) providerID ].
Proof.
  intros params env out.
  destruct (result out) as [e|reply] eqn:Hres; [by vm_compute in Hres|].
  destruct (certificate_is_registered_with_its_key env Sample.ACTION Examples.session
              (Examples.request "crypto/certificateStorage/import") []
              Examples.world CertificateStorageImportAction reply eq_refl eq_refl Hres)
    as (p & providerID & c & middle & made & cert & wi & thumbprint & raw
        & _ & Hmade & _ & Htrace & Hst & _).
  exists reply, made, c, cert, thumbprint, providerID. split_and!; try done.
  unfold out. rewrite Htrace. rewrite !elem_of_cons, !elem_of_app, !elem_of_cons. auto 10.
Defined.

Lemma generateKey_registers_what_was_generated_witness :
  let params := GenerateKeyActionProto.mk "p1" Examples.rsa true ["sign"; "verify"] in
  let env := Sample.provider (Sample.GenerateKeyRequest params) in
  let out := exec env (onMessage Sample.ACTION Examples.session
                         (Examples.request "crypto/subtle/generateKey"))
                  [Examples.handle_of_p1] Examples.world in
  ∃ reply entries raw,
    result out = inr reply
    ∧ storage out = [Examples.handle_of_p1] ++ entries
    ∧ ResultProto.data reply = Some (ArrayBuffer raw).
Proof.
  intros params env out.
  destruct (result out) as [e|reply] eqn:Hres; [by vm_compute in Hres|].
  destruct (generateKey_registers_what_was_generated env Sample.ACTION Examples.session
              (Examples.request "crypto/subtle/generateKey") [Examples.handle_of_p1]
              Examples.world reply eq_refl Hres)
    as (p & c & keys & wi & thumbprint & raw & _ & _ & Hst & Hdata).
  by eexists reply, _, raw.
Defined.

Lemma handlers_register_under_thumbprints_witness :
  let params := GenerateKeyActionProto.mk "p1" Examples.rsa true ["sign"; "verify"] in
  let env := Sample.provider (Sample.GenerateKeyRequest params) in
  let out := Dispatch.exec_among env Dispatch.alone 0
               (onMessage Sample.ACTION Examples.session
                          (Examples.request "crypto/subtle/generateKey"))
               [Examples.handle_of_p1] Examples.world in
  let item := ServiceCryptoItem.mk "abcd"
                (Key (CryptoKey.mk "public" Examples.rsa true ["verify"] 1)) "p1" in
  item ∈ storage out
  ∧ ∃ o, o ∈ trace out ∧ Dispatch.hex_answer o = Some "abcd".
Proof.
  intros params env out item.
  assert (Hin : item ∈ storage out) by (vm_compute; right; left).
  split; [done|].
  destruct (handlers_register_under_thumbprints env Sample.ACTION Examples.session
              (Examples.request "crypto/subtle/generateKey") Dispatch.alone
              [Examples.handle_of_p1] Examples.world item Hin)
    as [Hold|[[n Hn]|Hhex]].
  - apply elem_of_cons in Hold as [Hold|Hold]; [discriminate Hold|].
    by apply elem_of_nil in Hold.
  - by apply elem_of_nil in Hn.
  - exact Hhex.
Defined.

Lemma keyStorage_getItem_miss_witness :
  let params := KeyStorageGetItemActionProto.mk "p1" "k9" (AlgorithmObject 0) undefined in
  let env := Sample.provider (Sample.KeyStorageGetItemRequest params) in
  let out := exec env (onMessage Sample.ACTION Examples.session
                         (Examples.request "crypto/keyStorage/getItem"))
                  [Examples.handle_of_p1] Examples.world in
  ∃ o,
    o ∈ trace out
    ∧ Dispatch.getItem_answer o = Some ("k9", null)
    ∧ result out = inl (Error "Cannot get key by identity 'k9'")
    ∧ storage out = [Examples.handle_of_p1]
    ∧ last (trace out) = Some o.
Proof.
  intros params env out.
  assert (Hlast : is_Some (last (trace out))) by (vm_compute; eauto).
  destruct Hlast as [o Ho].
  assert (Hin : o ∈ trace out).
  { apply last_Some in Ho as [before ->]. apply elem_of_app. right. by left. }
  assert (Hanswer : Dispatch.getItem_answer o = Some ("k9", null)).
  { vm_compute in Ho. by injection Ho as <-. }
  exists o. split; [done|]. split; [done|].
  exact (keyStorage_getItem_miss env Sample.ACTION Examples.session
           (Examples.request "crypto/keyStorage/getItem") [Examples.handle_of_p1]
           Examples.world o "k9" null eq_refl Hin Hanswer eq_refl).
Defined.

Lemma login_follows_the_prompt_witness :
  let env := Probe.provider (Probe.LoginRequest (LoginActionProto.mk "p1")) in
  let out := exec env (onMessage Sample.ACTION Examples.session
                         (Examples.request "crypto/login"))
                  [] Examples.world in
  "1234" ∈ omap Dispatch.login_pin (trace out)
  ∧ omap Dispatch.notified (trace out) = [("replied", defined "1234")].
Proof.
  intros env out.
  assert (Hpin : "1234" ∈ omap Dispatch.login_pin (trace out)) by (vm_compute; by left).
  split; [done|].
  destruct (login_follows_the_prompt env Sample.ACTION Examples.session
              (Examples.request "crypto/login") [] Examples.world eq_refl)
    as (Hlogin & _).
  exact (Hlogin "1234" Hpin).
Defined.

Lemma flag_is_one_byte_witness :
  let params := VerifyActionProto.mk "p1" Examples.rsa
                  (CryptoItemProto.mk "ab12" "p1" "private") [Byte.x01] [Byte.x02] in
  let env := Probe.provider (Probe.VerifyRequest params) in
  let out := exec env (onMessage Sample.ACTION Examples.session
                         (Examples.request "crypto/subtle/verify"))
                  [Examples.handle_of_p1] Examples.world in
  ∃ reply ok,
    result out = inr reply
    ∧ omap Dispatch.flag_answer (trace out) = [ok]
    ∧ ResultProto.data reply
      = Some (ArrayBuffer [if ok : bool then Byte.x01 else Byte.x00]).
Proof.
  intros params env out.
  destruct (result out) as [e|reply] eqn:Hres; [by vm_compute in Hres|].
  destruct (flag_is_one_byte env Sample.ACTION Examples.session
              (Examples.request "crypto/subtle/verify") [Examples.handle_of_p1]
              Examples.world VerifyAction reply eq_refl (or_introl eq_refl) Hres)
    as (ok & Hok & Hdata).
  by exists reply, ok.
Defined.

Lemma on_connect_keeps_sessions_distinct_witness :
  let second := Session.mk null false 1 in
  NoDup [Examples.session]
  ∧ NoDup (on_connect second [Examples.session])
  ∧ second ∈ on_connect second [Examples.session].
Proof.
  intros second.
  assert (Hnd : NoDup [Examples.session]) by apply NoDup_singleton.
  split; [done|].
  destruct (on_connect_keeps_sessions_distinct second [Examples.session] Hnd)
    as (H1 & H2 & _).
  by split.
Defined.

End Instances.

Section ClientInstances.
Import Client.

Lemma not_open_socket_sends_nothing_witness :
  let c := run Sample.importResult [Send "crypto/subtle/sign" None; Close]
               (connected "127.0.0.1:31337") in
  let c' := run Sample.importResult
                [Send "crypto/subtle/digest" None; SendThen 0 (inr [Byte.x01])] c in
  readyState c ≠ open
  ∧ messageCounter c' = messageCounter c
  ∧ Rejected (RejectOf 1) (Error "Socket connection is not open") ∈ calls c'
  ∧ ∃ frames, sent c' = sent c ++ frames
              ∧ length frames + size (chains c') ≤ size (chains c).
Proof.
  intros c c'.
  assert (Hc : readyState c ≠ open) by (by vm_compute).
  split; [done|].
  destruct (not_open_socket_sends_nothing Sample.importResult c
              [Send "crypto/subtle/digest" None; SendThen 0 (inr [Byte.x01])] Hc)
    as (Hcounter & _ & Hrejected & Hframes).
  split; [done|]. split; [|done].
  apply Hrejected. vm_compute. lia.
Defined.

Lemma actionId_is_not_reused_witness :
  let c := connected "127.0.0.1:31337" in
  let c1 := send "crypto/subtle/sign" None c in
  toString (messageCounter (run Sample.importResult [Send "crypto/subtle/digest" None] c1))
  ≠ toString (messageCounter c).
Proof.
  intros c c1.
  assert (Hsmall : (messageCounter c < 2 ^ 53)%N) by (by vm_compute).
  by destruct (actionId_is_not_reused Sample.importResult c "crypto/subtle/sign" None
                 [Send "crypto/subtle/digest" None] eq_refl Hsmall) as [_ ?].
Defined.

Lemma pending_entries_are_unsettled_witness :
  let c := run Sample.importResult
             [Send "crypto/subtle/sign" None; SendThen 0 (inr [])]
             (connected "127.0.0.1:31337") in
  stack c !! "0" = Some (own 0)
  ∧ ∃ p, own 0 = own p ∧ p < promises c ∧ settlements p c = 0.
Proof.
  intros c.
  assert (Hk : stack c !! "0" = Some (own 0)) by (by vm_compute).
  split; [done|].
  destruct (pending_entries_are_unsettled Sample.importResult
              [Send "crypto/subtle/sign" None; SendThen 0 (inr [])]
              "127.0.0.1:31337" "0" (own 0) Hk) as (p & Hp & Hlt & Hzero & _).
  by exists p.
Defined.

End ClientInstances.

Section HandshakeInstances.
Import Connect.

Lemma session_identity_is_stored_witness :
  let info := ServerInfo.mk "webcrypto-local" "1.0" "AQID" in
  let r := socket_onopen browser info "127.0.0.1:31337" (mkWorld None 0) in
  IdentityObject 0 ∈ omap session_identity (calls_made r)
  ∧ omap created (calls_made r) = [(1%N, IdentityObject 0)]
  ∧ omap saved (calls_made r) = [IdentityObject 0].
Proof.
  intros info r.
  assert (Hin : IdentityObject 0 ∈ omap session_identity (calls_made r))
    by (vm_compute; by left).
  split; [done|].
  destruct (session_identity_is_stored browser info "127.0.0.1:31337" (mkWorld None 0)
              (IdentityObject 0) Hin) as [(Hloaded & _)|(v & _ & _ & Hcreated & Hsaved)].
  - by vm_compute in Hloaded.
  - by split.
Defined.

End HandshakeInstances.
